(** * TransInterped: an interpolated prior with frozen rescaling bounds

    Shallow embedding of [tbilby/core/prior/TransInterped.py] and the
    properties of its specification.

    Numbers.  Python floats are modelled by rationals ([Q]): finite values
    and exact arithmetic.  Rounding, infinities and NaN are outside the model,
    with one exception: the NaN default of the constructor's [minimum] and
    [maximum] arguments is [None].  Where numpy would divide by zero (the
    normalisation of a density whose integral is 0) the normalised values
    are NaN or infinite: the theorems whose statements depend on them assume
    an integral that is not 0, or positive where an order is at stake.

    Exact arithmetic.  What is stored, which branch runs, what raises, and
    what an interpolant returns at a knot or outside its knots do not depend
    on rounding.  An order between computed values does: the monotonicity of
    [cdf] and of [rescale], the range of [cdf] and of [rescale], and [YY]
    ending at its greatest entry are statements in exact arithmetic.  In
    binary64 the normalised cumulative sums can pass the forced last entry
    [YY[-1] = 1] by a unit in the last place ([xx = [0, 1, 2, 3, 4]] and
    [yy = [4, 2, 1, 0, 0]] give [YY[-2] = 1.0000000000000002]), and the value
    on a segment can pass the ordinate of the next knot by as much.  The
    statements that depend on exact arithmetic say so.

    Samples.  [xx] and [yy] hold floats, on which the [float(...)] of the
    constructor is the identity; Python ints too large for a float are
    outside the model.

    Library calls.  [min], [max], [np.nanmax], [np.nanmin], [np.linspace],
    [np.trapz], [scipy.integrate.cumtrapz], [np.array_equal] and
    [scipy.interpolate.interp1d] (linear kind, which delegates to [np.interp])
    are modelled in module [Np] from their documented behaviour. *)

From Stdlib Require Import QArith Lists.List Bool ZArith Lia Lqa Qfield.
Import ListNotations.
Open Scope Q_scope.

(** ** Exceptions and results *)

Inductive exn : Type := ValueError | TypeError | AttributeError.

Inductive result (A : Type) : Type :=
| Ok (a : A)
| Raise (e : exn).
Arguments Ok {A} a.
Arguments Raise {A} e.

Definition rbind {A B : Type} (r : result A) (k : A -> result B) : result B :=
  match r with
  | Ok a => k a
  | Raise e => Raise e
  end.

Fixpoint rmap {A B : Type} (f : A -> result B) (l : list A) : result (list B) :=
  match l with
  | [] => Ok []
  | a :: l' => rbind (f a) (fun b => rbind (rmap f l') (fun bs => Ok (b :: bs)))
  end.

(** ** Python values that reach the class *)

(** A bound or a query: a Python float, a Python int, or a one-dimensional
    numpy array of floats. *)
Inductive pyval : Type :=
| PFloat (q : Q)
| PInt (z : Z)
| PArray (a : list Q).

(** A numpy array of floats of dimension zero, one or two. *)
Inductive ndarray : Type :=
| Arr0 (q : Q)
| Arr1 (a : list Q)
| Arr2 (rows : list (list Q)).

(** What a comparison such as [minimum < self.min_limit] evaluates to. *)
Inductive pytruth : Type :=
| PBool (b : bool)
| PBoolArray (bs : list bool).

Definition Qltb (a b : Q) : bool := negb (Qle_bool b a).

(** ** numpy and scipy *)

Module Np.

(** Python's [min(xx)] and [max(xx)]: ValueError on an empty sequence. *)
Definition py_min (l : list Q) : result Q :=
  match l with
  | [] => Raise ValueError
  | x :: l' => Ok (fold_left (fun m y => if Qltb y m then y else m) l' x)
  end.

Definition py_max (l : list Q) : result Q :=
  match l with
  | [] => Raise ValueError
  | x :: l' => Ok (fold_left (fun m y => if Qltb m y then y else m) l' x)
  end.

(** [np.nanmax(np.array((a, b)))] and [np.nanmin]: a NaN entry is ignored. *)
Definition nanmax (a : Q) (b : option Q) : Q :=
  match b with
  | None => a
  | Some b => if Qltb a b then b else a
  end.

Definition nanmin (a : Q) (b : option Q) : Q :=
  match b with
  | None => a
  | Some b => if Qltb b a then b else a
  end.

(** [np.linspace(start, stop, num)] on scalars: [arange(num) * step + start]
    with the last entry overwritten by [stop]. *)
Definition linspace (start stop : Q) (num : nat) : list Q :=
  match num with
  | O => []
  | S O => [start]
  | S d =>
      let step := (stop - start) / inject_Z (Z.of_nat d) in
      map (fun i => inject_Z (Z.of_nat i) * step + start) (seq 0 d) ++ [stop]
  end.

(** Broadcasting of two one-dimensional shapes. *)
Definition broadcast (a b : list Q) : result (list (Q * Q)) :=
  if Nat.eqb (length a) (length b) then Ok (combine a b)
  else match a, b with
       | [x], _ => Ok (map (fun y => (x, y)) b)
       | _, [y] => Ok (map (fun x => (x, y)) a)
       | _, _ => Raise ValueError
       end.

(** [np.linspace] with array bounds: one column per broadcast pair, [num]
    rows. *)
Definition linspace2 (start stop : list Q) (num : nat) : result ndarray :=
  rbind (broadcast start stop) (fun ps =>
    let cols := map (fun p => linspace (fst p) (snd p) num) ps in
    Ok (Arr2 (map (fun i => map (fun c => nth i c 0) cols) (seq 0 num)))).

Definition as_array (v : pyval) : option (list Q) :=
  match v with
  | PArray a => Some a
  | _ => None
  end.

Definition as_scalar (v : pyval) : Q :=
  match v with
  | PFloat q => q
  | PInt z => inject_Z z
  | PArray _ => 0
  end.

Definition np_linspace (start stop : pyval) (num : nat) : result ndarray :=
  match as_array start, as_array stop with
  | None, None => Ok (Arr1 (linspace (as_scalar start) (as_scalar stop) num))
  | Some a, None => linspace2 a [as_scalar stop] num
  | None, Some b => linspace2 [as_scalar start] b num
  | Some a, Some b => linspace2 a b num
  end.

(** [cumtrapz(y, x, initial=0)]: running sum of [diff(x) * (y[1:] + y[:-1]) / 2]. *)
Fixpoint cumtrapz_from (acc x0 y0 : Q) (xs ys : list Q) : list Q :=
  match xs, ys with
  | x1 :: xs', y1 :: ys' =>
      let acc' := acc + (x1 - x0) * (y1 + y0) / 2 in
      acc' :: cumtrapz_from acc' x1 y1 xs' ys'
  | _, _ => []
  end.

Definition cumtrapz (y x : list Q) : list Q :=
  match x, y with
  | x0 :: xs, y0 :: ys => 0 :: cumtrapz_from 0 x0 y0 xs ys
  | _, _ => []
  end.

(** [np.trapz(y, x)]: the sum of the same increments. *)
Fixpoint trapz_from (acc x0 y0 : Q) (xs ys : list Q) : Q :=
  match xs, ys with
  | x1 :: xs', y1 :: ys' =>
      trapz_from (acc + (x1 - x0) * (y1 + y0) / 2) x1 y1 xs' ys'
  | _, _ => acc
  end.

Definition trapz (y x : list Q) : Q :=
  match x, y with
  | x0 :: xs, y0 :: ys => trapz_from 0 x0 y0 xs ys
  | _, _ => 0
  end.

(** [a[-1] = v] *)
Fixpoint set_last (l : list Q) (v : Q) : list Q :=
  match l with
  | [] => []
  | [_] => [v]
  | x :: l' => x :: set_last l' v
  end.

(** [np.array_equal] *)
Fixpoint list_equal (a b : list Q) : bool :=
  match a, b with
  | [], [] => true
  | x :: a', y :: b' => Qeq_bool x y && list_equal a' b'
  | _, _ => false
  end.

Fixpoint rows_equal (a b : list (list Q)) : bool :=
  match a, b with
  | [], [] => true
  | x :: a', y :: b' => list_equal x y && rows_equal a' b'
  | _, _ => false
  end.

Definition array_equal (a b : ndarray) : bool :=
  match a, b with
  | Arr0 x, Arr0 y => Qeq_bool x y
  | Arr1 x, Arr1 y => list_equal x y
  | Arr2 x, Arr2 y => rows_equal x y
  | _, _ => false
  end.

(** *** interp1d *)

(** The stable sort by abscissa that [interp1d] applies to its knots
    ([np.argsort(x, kind="mergesort")]). *)
Fixpoint insert_knot (k : Q * Q) (l : list (Q * Q)) : list (Q * Q) :=
  match l with
  | [] => [k]
  | k' :: l' => if Qle_bool (fst k) (fst k') then k :: k' :: l'
                else k' :: insert_knot k l'
  end.

Fixpoint sort_knots (l : list (Q * Q)) : list (Q * Q) :=
  match l with
  | [] => []
  | k :: l' => insert_knot k (sort_knots l')
  end.

Record interp1d : Type := mk_interp {
  knots : list (Q * Q);
  bounds_error : bool;
  fill_below : Q;
  fill_above : Q
}.

(** [interp1d(x=x, y=y, bounds_error=be, fill_value=(lo, hi))]; the arrays are
    copied, so the interpolant does not alias [x] or [y]. *)
Definition new_interp1d (x y : list Q) (be : bool) (lo hi : Q) : result interp1d :=
  if negb (Nat.eqb (length x) (length y)) then Raise ValueError
  else if Nat.ltb (length x) 1 then Raise ValueError
  else Ok (mk_interp (sort_knots (combine x y)) be lo hi).

(** [np.interp] to the right of the knot [(x0, y0)]: the segment is the one of
    the last knot whose abscissa is at most [x]; a query on a knot, or past the
    last one, returns the knot's ordinate. *)
Fixpoint np_interp (x0 y0 : Q) (l : list (Q * Q)) (x : Q) : Q :=
  match l with
  | [] => y0
  | (x1, y1) :: l' =>
      if Qle_bool x1 x then np_interp x1 y1 l' x
      else if Qeq_bool x0 x then y0
      else (y1 - y0) / (x1 - x0) * (x - x0) + y0
  end.

(** One evaluation of an interpolant. *)
Definition interp_at (f : interp1d) (x : Q) : result Q :=
  match knots f with
  | [] => Raise ValueError
  | (x0, y0) :: l =>
      if Qltb x x0 then
        if bounds_error f then Raise ValueError else Ok (fill_below f)
      else if Qltb (fst (last l (x0, y0))) x then
        if bounds_error f then Raise ValueError else Ok (fill_above f)
      else Ok (np_interp x0 y0 l x)
  end.

(** Calling an interpolant: the result is an array of the shape of the
    argument (dimension zero for a Python scalar). *)
Definition call (f : interp1d) (v : ndarray) : result ndarray :=
  match v with
  | Arr0 q => rbind (interp_at f q) (fun y => Ok (Arr0 y))
  | Arr1 a => rbind (rmap (interp_at f) a) (fun ys => Ok (Arr1 ys))
  | Arr2 rows => rbind (rmap (rmap (interp_at f)) rows) (fun ys => Ok (Arr2 ys))
  end.

(** [np.asarray] of a Python value. *)
Definition asarray (v : pyval) : ndarray :=
  match v with
  | PFloat q => Arr0 q
  | PInt z => Arr0 (inject_Z z)
  | PArray a => Arr1 a
  end.

(** [len(a)] *)
Definition len (a : ndarray) : result nat :=
  match a with
  | Arr0 _ => Raise TypeError
  | Arr1 l => Ok (length l)
  | Arr2 rows => Ok (length rows)
  end.

End Np.

(** ** The object *)

(** The attributes of a [TransInterped] instance.  An attribute that is not
    set yet, or holds Python's [None], is [None].  The display metadata of the
    superclass (name, latex label, unit, boundary) plays no part here. *)
Record TransInterped : Type := mkTransInterped {
  xx : ndarray;
  min_limit : Q;
  max_limit : Q;
  _yy : ndarray;
  YY : option (list Q);
  probability_density : option Np.interp1d;
  cumulative_distribution : option Np.interp1d;
  inverse_cumulative_distribution : option Np.interp1d;
  all_interpolated : Np.interp1d;
  trans_min : Q;
  trans_max : Q;
  init_once : bool;
  _minimum : option pyval;
  _maximum : option pyval;
  YYnotNorm : option (list Q);
  Normalizer_calc : option Np.interp1d;
  Inv_Normalizer_calc : option Np.interp1d
}.

Definition set_xx (v : ndarray) (s : TransInterped) : TransInterped :=
  mkTransInterped v (min_limit s) (max_limit s) (_yy s) (YY s)
    (probability_density s) (cumulative_distribution s)
    (inverse_cumulative_distribution s) (all_interpolated s) (trans_min s)
    (trans_max s) (init_once s) (_minimum s) (_maximum s) (YYnotNorm s)
    (Normalizer_calc s) (Inv_Normalizer_calc s).

Definition set__yy (v : ndarray) (s : TransInterped) : TransInterped :=
  mkTransInterped (xx s) (min_limit s) (max_limit s) v (YY s)
    (probability_density s) (cumulative_distribution s)
    (inverse_cumulative_distribution s) (all_interpolated s) (trans_min s)
    (trans_max s) (init_once s) (_minimum s) (_maximum s) (YYnotNorm s)
    (Normalizer_calc s) (Inv_Normalizer_calc s).

Definition set_YY (v : list Q) (s : TransInterped) : TransInterped :=
  mkTransInterped (xx s) (min_limit s) (max_limit s) (_yy s) (Some v)
    (probability_density s) (cumulative_distribution s)
    (inverse_cumulative_distribution s) (all_interpolated s) (trans_min s)
    (trans_max s) (init_once s) (_minimum s) (_maximum s) (YYnotNorm s)
    (Normalizer_calc s) (Inv_Normalizer_calc s).

Definition set_probability_density (v : Np.interp1d) (s : TransInterped) : TransInterped :=
  mkTransInterped (xx s) (min_limit s) (max_limit s) (_yy s) (YY s)
    (Some v) (cumulative_distribution s)
    (inverse_cumulative_distribution s) (all_interpolated s) (trans_min s)
    (trans_max s) (init_once s) (_minimum s) (_maximum s) (YYnotNorm s)
    (Normalizer_calc s) (Inv_Normalizer_calc s).

Definition set_cumulative_distribution (v : Np.interp1d) (s : TransInterped) : TransInterped :=
  mkTransInterped (xx s) (min_limit s) (max_limit s) (_yy s) (YY s)
    (probability_density s) (Some v)
    (inverse_cumulative_distribution s) (all_interpolated s) (trans_min s)
    (trans_max s) (init_once s) (_minimum s) (_maximum s) (YYnotNorm s)
    (Normalizer_calc s) (Inv_Normalizer_calc s).

Definition set_inverse_cumulative_distribution (v : Np.interp1d) (s : TransInterped) : TransInterped :=
  mkTransInterped (xx s) (min_limit s) (max_limit s) (_yy s) (YY s)
    (probability_density s) (cumulative_distribution s)
    (Some v) (all_interpolated s) (trans_min s)
    (trans_max s) (init_once s) (_minimum s) (_maximum s) (YYnotNorm s)
    (Normalizer_calc s) (Inv_Normalizer_calc s).

Definition set_all_interpolated (v : Np.interp1d) (s : TransInterped) : TransInterped :=
  mkTransInterped (xx s) (min_limit s) (max_limit s) (_yy s) (YY s)
    (probability_density s) (cumulative_distribution s)
    (inverse_cumulative_distribution s) v (trans_min s)
    (trans_max s) (init_once s) (_minimum s) (_maximum s) (YYnotNorm s)
    (Normalizer_calc s) (Inv_Normalizer_calc s).

Definition set_init_once (v : bool) (s : TransInterped) : TransInterped :=
  mkTransInterped (xx s) (min_limit s) (max_limit s) (_yy s) (YY s)
    (probability_density s) (cumulative_distribution s)
    (inverse_cumulative_distribution s) (all_interpolated s) (trans_min s)
    (trans_max s) v (_minimum s) (_maximum s) (YYnotNorm s)
    (Normalizer_calc s) (Inv_Normalizer_calc s).

Definition set__minimum (v : pyval) (s : TransInterped) : TransInterped :=
  mkTransInterped (xx s) (min_limit s) (max_limit s) (_yy s) (YY s)
    (probability_density s) (cumulative_distribution s)
    (inverse_cumulative_distribution s) (all_interpolated s) (trans_min s)
    (trans_max s) (init_once s) (Some v) (_maximum s) (YYnotNorm s)
    (Normalizer_calc s) (Inv_Normalizer_calc s).

Definition set__maximum (v : pyval) (s : TransInterped) : TransInterped :=
  mkTransInterped (xx s) (min_limit s) (max_limit s) (_yy s) (YY s)
    (probability_density s) (cumulative_distribution s)
    (inverse_cumulative_distribution s) (all_interpolated s) (trans_min s)
    (trans_max s) (init_once s) (_minimum s) (Some v) (YYnotNorm s)
    (Normalizer_calc s) (Inv_Normalizer_calc s).

Definition set_YYnotNorm (v : list Q) (s : TransInterped) : TransInterped :=
  mkTransInterped (xx s) (min_limit s) (max_limit s) (_yy s) (YY s)
    (probability_density s) (cumulative_distribution s)
    (inverse_cumulative_distribution s) (all_interpolated s) (trans_min s)
    (trans_max s) (init_once s) (_minimum s) (_maximum s) (Some v)
    (Normalizer_calc s) (Inv_Normalizer_calc s).

Definition set_Normalizer_calc (v : Np.interp1d) (s : TransInterped) : TransInterped :=
  mkTransInterped (xx s) (min_limit s) (max_limit s) (_yy s) (YY s)
    (probability_density s) (cumulative_distribution s)
    (inverse_cumulative_distribution s) (all_interpolated s) (trans_min s)
    (trans_max s) (init_once s) (_minimum s) (_maximum s) (YYnotNorm s)
    (Some v) (Inv_Normalizer_calc s).

Definition set_Inv_Normalizer_calc (v : Np.interp1d) (s : TransInterped) : TransInterped :=
  mkTransInterped (xx s) (min_limit s) (max_limit s) (_yy s) (YY s)
    (probability_density s) (cumulative_distribution s)
    (inverse_cumulative_distribution s) (all_interpolated s) (trans_min s)
    (trans_max s) (init_once s) (_minimum s) (_maximum s) (YYnotNorm s)
    (Normalizer_calc s) (Some v).

(** ** Methods: a state and exception monad

    A method mutates [self] and may raise; what it assigned before raising
    stays assigned. *)

Definition M (A : Type) : Type := TransInterped -> TransInterped * result A.

Definition ret {A : Type} (a : A) : M A := fun s => (s, Ok a).

Definition raise {A : Type} (e : exn) : M A := fun s => (s, Raise e).

Definition bind {A B : Type} (m : M A) (k : A -> M B) : M B :=
  fun s => match m s with
           | (s', Ok a) => k a s'
           | (s', Raise e) => (s', Raise e)
           end.

Definition get : M TransInterped := fun s => (s, Ok s).

Definition assign (f : TransInterped -> TransInterped) : M unit :=
  fun s => (f s, Ok tt).

Definition lift {A : Type} (r : result A) : M A := fun s => (s, r).

(** Reading an attribute: AttributeError when it is not set. *)
Definition attr {A : Type} (o : option A) : result A :=
  match o with
  | Some a => Ok a
  | None => Raise AttributeError
  end.

Declare Scope method_scope.
Delimit Scope method_scope with method.
Notation "'let*' x ':=' m 'in' k" := (bind m (fun x => k))
  (at level 10, x name, m at level 200, k at level 200) : method_scope.
Open Scope method_scope.

(** *** Bound setters *)

Definition isinstance_float (v : pyval) : bool :=
  match v with
  | PFloat _ => true
  | _ => false
  end.

(** [v < limit] and [v > limit] *)
Definition py_lt (v : pyval) (limit : Q) : pytruth :=
  match v with
  | PFloat q => PBool (Qltb q limit)
  | PInt z => PBool (Qltb (inject_Z z) limit)
  | PArray a => PBoolArray (map (fun q => Qltb q limit) a)
  end.

Definition py_gt (v : pyval) (limit : Q) : pytruth :=
  match v with
  | PFloat q => PBool (Qltb limit q)
  | PInt z => PBool (Qltb limit (inject_Z z))
  | PArray a => PBoolArray (map (fun q => Qltb limit q) a)
  end.

(** The condition of an [if]: an array of more than one element has no truth
    value. *)
Definition truth (t : pytruth) : result bool :=
  match t with
  | PBool b => Ok b
  | PBoolArray [] => Ok false
  | PBoolArray [b] => Ok b
  | PBoolArray _ => Raise ValueError
  end.

(** The builtin [any]: its argument must be iterable, and a bool is not. *)
Definition py_any (t : pytruth) : result bool :=
  match t with
  | PBool _ => Raise TypeError
  | PBoolArray bs => Ok (existsb (fun b => b) bs)
  end.

Definition minimum_setter (minimum : pyval) : M unit :=
  let* self := get in
  let* violated := lift (if isinstance_float minimum
                         then truth (py_lt minimum (min_limit self))
                         else py_any (py_lt minimum (min_limit self))) in
  let* _ := (if violated : bool then raise ValueError else ret tt) in
  assign (set__minimum minimum).

Definition maximum_setter (maximum : pyval) : M unit :=
  let* self := get in
  let* violated := lift (if isinstance_float maximum
                         then truth (py_gt maximum (max_limit self))
                         else py_any (py_gt maximum (max_limit self))) in
  let* _ := (if violated : bool then raise ValueError else ret tt) in
  assign (set__maximum maximum).

Definition minimum : M pyval :=
  let* self := get in lift (attr (_minimum self)).

Definition maximum : M pyval :=
  let* self := get in lift (attr (_maximum self)).

(** *** The build *)

Definition _initialize_attributes : M unit :=
  let* self := get in
  if init_once self then ret tt
  else
    match xx self, _yy self with
    | Arr1 x, Arr1 y =>
        (* the notice printed when [np.trapz(self._yy, self.xx) != 1] has no
           effect on the object and is left out *)
        let ynn := Np.cumtrapz y x in
        let* _ := assign (set_YYnotNorm ynn) in
        let* f := lift (Np.new_interp1d x ynn false 0 0) in
        let* _ := assign (set_Normalizer_calc f) in
        let* g := lift (Np.new_interp1d ynn x false 0 0) in
        let* _ := assign (set_Inv_Normalizer_calc g) in
        let total := Np.trapz y x in
        let y' := map (fun v => v / total) y in
        let* _ := assign (set__yy (Arr1 y')) in
        let cum := Np.set_last (Np.cumtrapz y' x) 1 in
        let* _ := assign (set_YY cum) in
        let* pd := lift (Np.new_interp1d x y' false 0 0) in
        let* _ := assign (set_probability_density pd) in
        let* cd := lift (Np.new_interp1d x cum false 0 1) in
        let* _ := assign (set_cumulative_distribution cd) in
        let* icd := lift (Np.new_interp1d cum x true 0 0) in
        let* _ := assign (set_inverse_cumulative_distribution icd) in
        assign (set_init_once true)
    | _, _ =>
        (* interp1d refuses an abscissa that is not one-dimensional; the
           guard is set before the grid can stop being one-dimensional *)
        raise ValueError
    end.

Definition _update_instance : M unit :=
  let* lo := minimum in
  let* hi := maximum in
  let* self := get in
  let* n := lift (Np.len (xx self)) in
  let* grid := lift (Np.np_linspace lo hi n) in
  let* _ := assign (set_xx grid) in
  let* y := lift (Np.call (all_interpolated self) grid) in
  let* _ := assign (set__yy y) in
  _initialize_attributes.

Definition yy_setter (yy : list Q) : M unit :=
  let* _ := assign (set__yy (Arr1 yy)) in
  let* self := get in
  let* f := lift (match xx self with
                  | Arr1 x => Np.new_interp1d x yy false 0 0
                  | _ => Raise ValueError
                  end) in
  let* _ := assign (set_all_interpolated f) in
  _update_instance.

(** [bilby.core.prior.Prior.__init__], the constructor of the superclass,
    which belongs to the bilby library and not to these sources.  With
    [check_range_nonzero], which [TransInterped] leaves at its default, it
    raises ValueError when [maximum <= minimum], an empty range included, and
    otherwise assigns [self.minimum] and [self.maximum] through the property
    setters of the class; what else it assigns is display metadata. *)
Definition Prior_init (minimum maximum : Q) : M unit :=
  let* _ := (if Qle_bool maximum minimum then raise ValueError else ret tt) in
  let* _ := minimum_setter (PFloat minimum) in
  maximum_setter (PFloat maximum).

(** [float(v)] of a numpy float: the Python float of the same value.  (On a
    Python int beyond 2^53 it would round; the samples of the model are
    floats.) *)
Definition py_float (v : Q) : Q := v.

(** The bounds resolved by the constructor:
    [float(np.nanmax(np.array((min(xx), minimum))))] and
    [float(np.nanmin(np.array((max(xx), maximum))))]. *)
Definition resolved_minimum (lo : Q) (minimum : option Q) : Q :=
  py_float (Np.nanmax lo minimum).

Definition resolved_maximum (hi : Q) (maximum : option Q) : Q :=
  py_float (Np.nanmin hi maximum).

(** [TransInterped(xx, yy, minimum, maximum)]; [None] is the NaN default of a
    bound. *)
Definition __init__ (xx0 yy0 : list Q) (minimum maximum : option Q) : result TransInterped :=
  rbind (Np.py_min xx0) (fun lo =>
  rbind (Np.py_max xx0) (fun hi =>
  rbind (Np.new_interp1d xx0 yy0 false 0 0) (fun f =>
  let minimum := resolved_minimum lo minimum in
  let maximum := resolved_maximum hi maximum in
  let self :=
    {| xx := Arr1 xx0; min_limit := lo; max_limit := hi; _yy := Arr1 yy0;
       YY := None; probability_density := None;
       cumulative_distribution := None;
       inverse_cumulative_distribution := None;
       all_interpolated := f;
       trans_min := minimum; trans_max := maximum; init_once := false;
       _minimum := None; _maximum := None; YYnotNorm := None;
       Normalizer_calc := None; Inv_Normalizer_calc := None |} in
  match (let* _ := Prior_init minimum maximum in _update_instance) self with
  | (self', Ok _) => Ok self'
  | (_, Raise e) => Raise e
  end))).

(** *** Queries *)

Inductive pyobject : Type :=
| ATransInterped (o : TransInterped)
| AnotherObject.

Definition __eq__ (self : TransInterped) (other : pyobject) : bool :=
  match other with
  | AnotherObject => false
  | ATransInterped o =>
      if Np.array_equal (xx self) (xx o) && Np.array_equal (_yy self) (_yy o)
      then true else false
  end.

Definition prob (self : TransInterped) (val : pyval) : result ndarray :=
  rbind (attr (probability_density self)) (fun f => Np.call f (Np.asarray val)).

Definition cdf (self : TransInterped) (val : pyval) : result ndarray :=
  rbind (attr (cumulative_distribution self)) (fun f => Np.call f (Np.asarray val)).

(** [self.inverse_cumulative_distribution(val)] *)
Definition quantile (self : TransInterped) (val : pyval) : result ndarray :=
  rbind (attr (inverse_cumulative_distribution self)) (fun f => Np.call f (Np.asarray val)).

(** Elementwise arithmetic of a numpy array. *)
Definition nd_map (f : Q -> Q) (a : ndarray) : ndarray :=
  match a with
  | Arr0 q => Arr0 (f q)
  | Arr1 l => Arr1 (map f l)
  | Arr2 rows => Arr2 (map (map f) rows)
  end.

(** What [rescale] returns: a Python float or an array. *)
Inductive pyret : Type :=
| RFloat (q : Q)
| RArray (a : ndarray).

Definition rescale (self : TransInterped) (val : pyval) : result pyret :=
  rbind (attr (Normalizer_calc self)) (fun N =>
  rbind (Np.interp_at N (trans_min self)) (fun y_mins =>
  rbind (Np.interp_at N (trans_max self)) (fun y_max =>
  let y_modifiy := nd_map (fun v => y_mins + (y_max - y_mins) * v) (Np.asarray val) in
  rbind (attr (Inv_Normalizer_calc self)) (fun I =>
  rbind (Np.call I y_modifiy) (fun rescaled =>
  match rescaled with
  | Arr0 q => Ok (RFloat q)
  | _ => Ok (RArray rescaled)
  end))))).

(** ** The specification's scenario *)

Definition xs5 : list Q := [0; 1; 2; 3; 4].
Definition ys5 : list Q := [1; 1; 1; 1; 1].

(** Samples with negative entries, which the constructor accepts: the
    integral of the first falls between two rises, the integral of the
    second falls below 0 at the start. *)
Definition ys_signed : list Q := [3; -1; -1; 3; 3].
Definition ys_dip : list Q := [-1; -1; 3; 3; 3].

(** ** Mutations after construction *)

Inductive mutation : Type :=
| SetMinimum (v : pyval)
| SetMaximum (v : pyval)
| SetYY (yy : list Q).

Definition apply_mutation (m : mutation) : M unit :=
  match m with
  | SetMinimum v => minimum_setter v
  | SetMaximum v => maximum_setter v
  | SetYY yy => yy_setter yy
  end.

(** The object after a sequence of mutations, each of which returns or
    raises. *)
Definition run (ms : list mutation) (s : TransInterped) : TransInterped :=
  fold_left (fun s m => fst (apply_mutation m s)) ms s.

(** The object after a sequence of mutations that all return. *)
Inductive reachable (s0 : TransInterped) : TransInterped -> Prop :=
| reach_constructed : reachable s0 s0
| reach_mutated s m s' :
    reachable s0 s -> apply_mutation m s = (s', Ok tt) -> reachable s0 s'.

(** ** Derived notions used by the statements *)

(** The value of an interpolant that does not raise. *)
Definition interp_val (f : Np.interp1d) (x : Q) : Q :=
  match Np.interp_at f x with
  | Ok v => v
  | Raise _ => 0
  end.

(** The entries of a bound. *)
Definition entries (v : pyval) : list Q :=
  match v with
  | PFloat q => [q]
  | PInt z => [inject_Z z]
  | PArray a => a
  end.

(** [min_limit <= minimum <= maximum <= max_limit], entry by entry. *)
Definition ordered_bounds (s : TransInterped) : Prop :=
  match _minimum s, _maximum s with
  | Some lo, Some hi =>
      forall a b, In a (entries lo) -> In b (entries hi) ->
                  min_limit s <= a /\ a <= b /\ b <= max_limit s
  | _, _ => False
  end.

(** Each bound within its own hard limit, entry by entry. *)
Definition limits_respected (s : TransInterped) : Prop :=
  match _minimum s, _maximum s with
  | Some lo, Some hi =>
      Forall (fun a => min_limit s <= a) (entries lo) /\
      Forall (fun b => b <= max_limit s) (entries hi)
  | _, _ => False
  end.

(** The part of the object that the one-shot guard protects, with the two
    bounds that [rescale] reads. *)
Definition frozen_part (s : TransInterped) :=
  (probability_density s, cumulative_distribution s,
   inverse_cumulative_distribution s, Normalizer_calc s,
   Inv_Normalizer_calc s, (trans_min s, trans_max s)).

(** The integral of the resampled density before normalisation. *)
Definition total_mass (s : TransInterped) : Q :=
  match YYnotNorm s with
  | Some l => last l 0
  | None => 0
  end.

(** The object that the build assembles from the limits, the resolved
    bounds, the master interpolant, the grid and the resampled density. *)
Definition assemble (lo hi tmin tmax : Q) (master : Np.interp1d)
    (grid y : list Q) : TransInterped :=
  let ynn := Np.cumtrapz y grid in
  let y' := map (fun v => v / Np.trapz y grid) y in
  let cum := Np.set_last (Np.cumtrapz y' grid) 1 in
  {| xx := Arr1 grid; min_limit := lo; max_limit := hi; _yy := Arr1 y';
     YY := Some cum;
     probability_density := Some (Np.mk_interp (Np.sort_knots (combine grid y')) false 0 0);
     cumulative_distribution := Some (Np.mk_interp (Np.sort_knots (combine grid cum)) false 0 1);
     inverse_cumulative_distribution := Some (Np.mk_interp (Np.sort_knots (combine cum grid)) true 0 0);
     all_interpolated := master;
     trans_min := tmin; trans_max := tmax; init_once := true;
     _minimum := Some (PFloat tmin); _maximum := Some (PFloat tmax);
     YYnotNorm := Some ynn;
     Normalizer_calc := Some (Np.mk_interp (Np.sort_knots (combine grid ynn)) false 0 0);
     Inv_Normalizer_calc := Some (Np.mk_interp (Np.sort_knots (combine ynn grid)) false 0 0) |}.

Definition master_of (xx0 yy0 : list Q) : Np.interp1d :=
  Np.mk_interp (Np.sort_knots (combine xx0 yy0)) false 0 0.

(** The object that a successful construction returns, written out. *)
Definition built (xx0 yy0 : list Q) (lo hi : Q) (mn mx : option Q) : TransInterped :=
  let tmin := resolved_minimum lo mn in
  let tmax := resolved_maximum hi mx in
  let grid := Np.linspace tmin tmax (length xx0) in
  assemble lo hi tmin tmax (master_of xx0 yy0) grid
    (map (interp_val (master_of xx0 yy0)) grid).

(** A method keeps the projection [proj] of the object, and the condition
    [I], whenever it starts from an object that satisfies [I]. *)
Definition keeps {A B : Type} (I : TransInterped -> Prop)
    (proj : TransInterped -> B) (m : M A) : Prop :=
  forall s, I s -> proj (fst (m s)) = proj s /\ I (fst (m s)).

Definition guarded (s : TransInterped) : Prop := init_once s = true.

(** What only the bound setters and the constructor assign. *)
Definition bounds_part (s : TransInterped) :=
  (_minimum s, _maximum s, (min_limit s, max_limit s)).

(** What a guarded [yy] replacement leaves alone. *)
Definition guarded_view (s : TransInterped) := (frozen_part s, bounds_part s).

(** An object is usable when the guard is set and its three queries return
    on every argument. *)
Definition usable (s : TransInterped) : Prop :=
  init_once s = true /\
  forall v, (exists r, prob s v = Ok r) /\ (exists r, cdf s v = Ok r) /\
            (exists r, rescale s v = Ok r).

(** Consecutive entries related by [R], starting from [x0]. *)
Fixpoint chain (R : Q -> Q -> Prop) (x0 : Q) (l : list Q) : Prop :=
  match l with
  | [] => True
  | x1 :: l' => R x0 x1 /\ chain R x1 l'
  end.

(** Consecutive knots with abscissas related by [Rx] and ordinates by [Ry],
    starting from [k0]. *)
Fixpoint kchain (Rx Ry : Q -> Q -> Prop) (k0 : Q * Q) (l : list (Q * Q)) : Prop :=
  match l with
  | [] => True
  | k1 :: l' => Rx (fst k0) (fst k1) /\ Ry (snd k0) (snd k1) /\ kchain Rx Ry k1 l'
  end.

Definition any_order (a b : Q) : Prop := True.

(** * Properties *)

(** ** Comparisons *)

Lemma Qltb_lt (a b : Q) : Qltb a b = true <-> a < b.
Proof.
  unfold Qltb. rewrite negb_true_iff. split; intro H.
  - apply Qnot_le_lt. intro L. apply Qle_bool_iff in L. congruence.
  - destruct (Qle_bool b a) eqn:E; [|reflexivity].
    apply Qle_bool_iff in E. exfalso. apply (Qlt_not_le _ _ H E).
Qed.

Lemma Qltb_ge (a b : Q) : Qltb a b = false <-> b <= a.
Proof.
  unfold Qltb. rewrite negb_false_iff. apply Qle_bool_iff.
Qed.

(** ** Lists, results and sorting *)

Lemma rmap_total {A B : Type} (f : A -> result B) (g : A -> B) (l : list A) :
  (forall a, In a l -> f a = Ok (g a)) -> rmap f l = Ok (map g l).
Proof.
  induction l as [|a l IH]; intro H; simpl; [reflexivity|].
  rewrite (H a (or_introl eq_refl)). simpl.
  rewrite IH by (intros; apply H; right; assumption). reflexivity.
Qed.

Lemma insert_knot_length k l : length (Np.insert_knot k l) = S (length l).
Proof.
  induction l as [|k' l IH]; simpl; [reflexivity|].
  destruct (Qle_bool (fst k) (fst k')); simpl; [reflexivity|].
  now rewrite IH.
Qed.

Lemma sort_knots_length l : length (Np.sort_knots l) = length l.
Proof.
  induction l as [|k l IH]; simpl; [reflexivity|].
  now rewrite insert_knot_length, IH.
Qed.

Lemma sort_knots_nonempty l : l <> [] -> Np.sort_knots l <> [].
Proof.
  intros H E. apply H. apply length_zero_iff_nil.
  rewrite <- sort_knots_length, E. reflexivity.
Qed.

Lemma new_interp1d_ok x y be lo hi :
  length x = length y -> x <> [] ->
  Np.new_interp1d x y be lo hi = Ok (Np.mk_interp (Np.sort_knots (combine x y)) be lo hi).
Proof.
  intros L N. unfold Np.new_interp1d.
  rewrite L, Nat.eqb_refl. simpl.
  destruct y as [|y0 y']; [destruct x; [contradiction|discriminate]|].
  reflexivity.
Qed.

Lemma new_interp1d_inv x y be lo hi f :
  Np.new_interp1d x y be lo hi = Ok f ->
  length x = length y /\ x <> [] /\
  f = Np.mk_interp (Np.sort_knots (combine x y)) be lo hi.
Proof.
  unfold Np.new_interp1d. intro H.
  destruct (Nat.eqb (length x) (length y)) eqn:E; simpl in H; [|discriminate].
  apply Nat.eqb_eq in E.
  destruct x as [|x0 x']; [discriminate|].
  cbn [length Nat.ltb Nat.leb] in H.
  repeat split; [assumption|discriminate|congruence].
Qed.

Lemma interp_at_total f x :
  Np.bounds_error f = false -> Np.knots f <> [] ->
  Np.interp_at f x = Ok (interp_val f x).
Proof.
  intros B K. unfold interp_val, Np.interp_at. rewrite B.
  destruct (Np.knots f) as [|[x0 y0] l]; [contradiction|].
  destruct (Qltb x x0); [reflexivity|].
  destruct (Qltb _ x); reflexivity.
Qed.

Lemma combine_nonempty {A B : Type} (x : list A) (y : list B) :
  length x = length y -> x <> [] -> combine x y <> [].
Proof.
  destruct x, y; simpl; intros; try discriminate; contradiction.
Qed.

Lemma mk_interp_total x y lo hi q :
  length x = length y -> x <> [] ->
  Np.interp_at (Np.mk_interp (Np.sort_knots (combine x y)) false lo hi) q
  = Ok (interp_val (Np.mk_interp (Np.sort_knots (combine x y)) false lo hi) q).
Proof.
  intros L N. apply interp_at_total; [reflexivity|].
  simpl. apply sort_knots_nonempty, combine_nonempty; assumption.
Qed.

(** ** numpy facts *)

Lemma linspace_length a b n : length (Np.linspace a b n) = n.
Proof.
  unfold Np.linspace. destruct n as [|[|d]]; try reflexivity.
  rewrite length_app, length_map, length_seq. simpl. lia.
Qed.

Lemma cumtrapz_from_length acc x0 y0 xs ys :
  length xs = length ys -> length (Np.cumtrapz_from acc x0 y0 xs ys) = length xs.
Proof.
  revert acc x0 y0 ys. induction xs as [|x1 xs IH]; intros acc x0 y0 ys L.
  - reflexivity.
  - destruct ys as [|y1 ys]; [discriminate|]. simpl. f_equal. apply IH.
    simpl in L. congruence.
Qed.

Lemma cumtrapz_length y x : length x = length y -> length (Np.cumtrapz y x) = length x.
Proof.
  intro L. destruct x as [|x0 xs], y as [|y0 ys]; try discriminate; [reflexivity|].
  simpl. f_equal. apply cumtrapz_from_length. simpl in L. congruence.
Qed.

Lemma set_last_length l v : length (Np.set_last l v) = length l.
Proof.
  induction l as [|x l IH]; [reflexivity|].
  destruct l as [|x' l]; [reflexivity|].
  change (S (length (Np.set_last (x' :: l) v)) = S (length (x' :: l))).
  now rewrite IH.
Qed.

Lemma nanmax_ge lo mn : lo <= Np.nanmax lo mn.
Proof.
  unfold Np.nanmax. destruct mn as [b|]; [|apply Qle_refl].
  destruct (Qltb lo b) eqn:E; [|apply Qle_refl].
  apply Qltb_lt in E. apply Qlt_le_weak. exact E.
Qed.

Lemma nanmin_le hi mx : Np.nanmin hi mx <= hi.
Proof.
  unfold Np.nanmin. destruct mx as [b|]; [|apply Qle_refl].
  destruct (Qltb b hi) eqn:E; [|apply Qle_refl].
  apply Qltb_lt in E. apply Qlt_le_weak. exact E.
Qed.

(** ** The setters, case by case *)

Lemma existsb_id_map {A : Type} (f : A -> bool) (l : list A) :
  existsb (fun b => b) (map f l) = existsb f l.
Proof.
  induction l as [|a l IH]; simpl; [reflexivity|]. now rewrite IH.
Qed.

Lemma minimum_setter_float q s :
  minimum_setter (PFloat q) s =
  if Qltb q (min_limit s) then (s, Raise ValueError)
  else (set__minimum (PFloat q) s, Ok tt).
Proof.
  unfold minimum_setter, bind, get, lift, raise, ret, assign. simpl.
  destruct (Qltb q (min_limit s)); reflexivity.
Qed.

Lemma maximum_setter_float q s :
  maximum_setter (PFloat q) s =
  if Qltb (max_limit s) q then (s, Raise ValueError)
  else (set__maximum (PFloat q) s, Ok tt).
Proof.
  unfold maximum_setter, bind, get, lift, raise, ret, assign. simpl.
  destruct (Qltb (max_limit s) q); reflexivity.
Qed.

Lemma minimum_setter_array a s :
  minimum_setter (PArray a) s =
  if existsb (fun q => Qltb q (min_limit s)) a then (s, Raise ValueError)
  else (set__minimum (PArray a) s, Ok tt).
Proof.
  unfold minimum_setter, bind, get, lift, raise, ret, assign. simpl.
  rewrite existsb_id_map.
  destruct (existsb _ a); reflexivity.
Qed.

Lemma maximum_setter_array a s :
  maximum_setter (PArray a) s =
  if existsb (fun q => Qltb (max_limit s) q) a then (s, Raise ValueError)
  else (set__maximum (PArray a) s, Ok tt).
Proof.
  unfold maximum_setter, bind, get, lift, raise, ret, assign. simpl.
  rewrite existsb_id_map.
  destruct (existsb _ a); reflexivity.
Qed.

Lemma minimum_setter_int z s : minimum_setter (PInt z) s = (s, Raise TypeError).
Proof. reflexivity. Qed.

Lemma maximum_setter_int z s : maximum_setter (PInt z) s = (s, Raise TypeError).
Proof. reflexivity. Qed.

(** ** What the constructor returns *)

Lemma py_min_nonempty l lo : Np.py_min l = Ok lo -> l <> [].
Proof. destruct l; [discriminate|intros _; discriminate]. Qed.

Lemma init_built xx0 yy0 mn mx lo hi :
  Np.py_min xx0 = Ok lo -> Np.py_max xx0 = Ok hi ->
  length xx0 = length yy0 ->
  resolved_minimum lo mn < resolved_maximum hi mx ->
  __init__ xx0 yy0 mn mx = Ok (built xx0 yy0 lo hi mn mx).
Proof.
  intros Hlo Hhi L B.
  pose proof (py_min_nonempty _ _ Hlo) as N.
  unfold __init__. rewrite Hlo, Hhi. cbn [rbind].
  rewrite (new_interp1d_ok _ _ _ _ _ L N). cbn [rbind].
  set (tmin := resolved_minimum lo mn) in *.
  set (tmax := resolved_maximum hi mx) in *.
  assert (Glen : length (Np.linspace tmin tmax (length xx0)) = length xx0)
    by apply linspace_length.
  assert (Gne : Np.linspace tmin tmax (length xx0) <> []).
  { intro E. rewrite E in Glen. destruct xx0; [contradiction|discriminate]. }
  unfold Prior_init, bind at 1 2 3.
  apply Qltb_lt in B. unfold Qltb in B. apply negb_true_iff in B.
  rewrite B. unfold ret at 1.
  rewrite minimum_setter_float. cbn [min_limit].
  assert (E1 : Qltb tmin lo = false) by (apply Qltb_ge, nanmax_ge).
  rewrite E1.
  rewrite maximum_setter_float. cbn [max_limit set__minimum].
  assert (E2 : Qltb hi tmax = false) by (apply Qltb_ge, nanmin_le).
  rewrite E2.
  unfold _update_instance, minimum, maximum, bind, get, lift, assign, ret.
  cbn [set__maximum set__minimum _minimum _maximum attr xx Np.len Np.np_linspace Np.as_array Np.as_scalar
       set_xx all_interpolated Np.call rbind].
  fold tmin tmax.
  set (master := Np.mk_interp (Np.sort_knots (combine xx0 yy0)) false 0 0).
  rewrite (rmap_total _ (interp_val master))
    by (intros; apply mk_interp_total; assumption).
  cbn [rbind].
  set (grid := Np.linspace tmin tmax (length xx0)) in *.
  set (y := map (interp_val master) grid).
  assert (Ly : length grid = length y) by (unfold y; now rewrite length_map).
  unfold _initialize_attributes, bind, get, lift, assign, ret.
  cbn [init_once set__yy set_xx set__maximum set__minimum xx _yy].
  set (ynn := Np.cumtrapz y grid).
  set (y' := map (fun v => v / Np.trapz y grid) y).
  set (cum := Np.set_last (Np.cumtrapz y' grid) 1).
  assert (Lnn : length grid = length ynn)
    by (unfold ynn; now rewrite cumtrapz_length).
  assert (Ly' : length grid = length y')
    by (unfold y'; now rewrite length_map).
  assert (Lcum : length grid = length cum)
    by (unfold cum; now rewrite set_last_length, cumtrapz_length).
  assert (Nnn : ynn <> []) by (intro E; rewrite E in Lnn; destruct grid; [easy|discriminate]).
  assert (Ncum : cum <> []) by (intro E; rewrite E in Lcum; destruct grid; [easy|discriminate]).
  rewrite (new_interp1d_ok grid ynn) by assumption.
  rewrite (new_interp1d_ok ynn grid) by (auto using eq_sym).
  rewrite (new_interp1d_ok grid y') by assumption.
  rewrite (new_interp1d_ok grid cum) by assumption.
  rewrite (new_interp1d_ok cum grid) by (auto using eq_sym).
  reflexivity.
Qed.

Lemma init_inv_strict xx0 yy0 mn mx s :
  __init__ xx0 yy0 mn mx = Ok s ->
  exists lo hi,
    Np.py_min xx0 = Ok lo /\ Np.py_max xx0 = Ok hi /\
    length xx0 = length yy0 /\
    resolved_minimum lo mn < resolved_maximum hi mx /\
    s = built xx0 yy0 lo hi mn mx.
Proof.
  intro H.
  destruct (Np.py_min xx0) as [lo|e] eqn:Hlo;
    [|unfold __init__ in H; rewrite Hlo in H; discriminate].
  destruct (Np.py_max xx0) as [hi|e] eqn:Hhi;
    [|unfold __init__ in H; rewrite Hlo, Hhi in H; discriminate].
  destruct (Np.new_interp1d xx0 yy0 false 0 0) as [f|e] eqn:Hf;
    [|unfold __init__ in H; rewrite Hlo, Hhi, Hf in H; discriminate].
  apply new_interp1d_inv in Hf. destruct Hf as [L _].
  destruct (Qle_bool (resolved_maximum hi mx) (resolved_minimum lo mn)) eqn:B.
  - unfold __init__ in H. rewrite Hlo, Hhi in H. cbn [rbind] in H.
    destruct (Np.new_interp1d xx0 yy0 false 0 0); cbn [rbind] in H; [|discriminate].
    unfold Prior_init, bind at 1 2 3 in H. rewrite B in H.
    unfold raise in H. discriminate.
  - assert (B' : resolved_minimum lo mn < resolved_maximum hi mx)
      by (apply Qltb_lt; unfold Qltb; now rewrite B).
    exists lo, hi.
    rewrite (init_built _ _ _ _ _ _ Hlo Hhi L B') in H.
    repeat split; try assumption. congruence.
Qed.

Lemma init_inv xx0 yy0 mn mx s :
  __init__ xx0 yy0 mn mx = Ok s ->
  exists lo hi,
    Np.py_min xx0 = Ok lo /\ Np.py_max xx0 = Ok hi /\
    length xx0 = length yy0 /\
    resolved_minimum lo mn <= resolved_maximum hi mx /\
    s = built xx0 yy0 lo hi mn mx.
Proof.
  intro H. apply init_inv_strict in H.
  destruct H as (lo & hi & Hlo & Hhi & L & B & E).
  exists lo, hi. repeat split; try assumption. apply Qlt_le_weak. exact B.
Qed.

Lemma init_sets_guard xx0 yy0 mn mx s :
  __init__ xx0 yy0 mn mx = Ok s -> init_once s = true.
Proof.
  intro H. apply init_inv in H.
  destruct H as (lo & hi & _ & _ & _ & _ & ->). reflexivity.
Qed.

(** ** The one-shot guard *)

Lemma keeps_bind {A B C : Type} (I : TransInterped -> Prop)
    (proj : TransInterped -> C) (m : M A) (k : A -> M B) :
  keeps I proj m -> (forall a, keeps I proj (k a)) -> keeps I proj (bind m k).
Proof.
  intros Hm Hk s Hs. unfold bind.
  destruct (Hm s Hs) as [E1 I1].
  destruct (m s) as [s' [a|e]]; simpl in *.
  - destruct (Hk a s' I1) as [E2 I2]. split; [congruence|assumption].
  - split; assumption.
Qed.

Lemma keeps_get {C : Type} I (proj : TransInterped -> C) : keeps I proj get.
Proof. intros s Hs. split; [reflexivity|exact Hs]. Qed.

Lemma keeps_lift {A C : Type} I (proj : TransInterped -> C) (r : result A) :
  keeps I proj (lift r).
Proof. intros s Hs. split; [reflexivity|exact Hs]. Qed.

Lemma keeps_assign {C : Type} (I : TransInterped -> Prop)
    (proj : TransInterped -> C) (f : TransInterped -> TransInterped) :
  (forall s, I s -> proj (f s) = proj s /\ I (f s)) -> keeps I proj (assign f).
Proof. intros H s Hs. exact (H s Hs). Qed.

Lemma initialize_attributes_guarded s :
  guarded s -> _initialize_attributes s = (s, Ok tt).
Proof.
  intro G. unfold _initialize_attributes, bind, get. rewrite G. reflexivity.
Qed.

Lemma initialize_attributes_keeps :
  keeps guarded guarded_view _initialize_attributes.
Proof.
  intros s G. rewrite (initialize_attributes_guarded s G).
  split; [reflexivity|exact G].
Qed.

Lemma yy_setter_keeps yy : keeps guarded guarded_view (yy_setter yy).
Proof.
  unfold yy_setter, _update_instance, minimum, maximum.
  repeat first
    [ apply initialize_attributes_keeps
    | apply keeps_get
    | apply keeps_lift
    | apply keeps_assign; intros s G; split; [reflexivity|exact G]
    | apply keeps_bind; [|intro] ].
Qed.

Lemma minimum_setter_cases v s :
  minimum_setter v s = (s, Raise ValueError) \/
  minimum_setter v s = (s, Raise TypeError) \/
  (minimum_setter v s = (set__minimum v s, Ok tt) /\
   Forall (fun q => min_limit s <= q) (entries v)).
Proof.
  destruct v as [q|z|a].
  - rewrite minimum_setter_float. destruct (Qltb q (min_limit s)) eqn:E; [now left|].
    right; right. split; [reflexivity|]. constructor; [|constructor].
    apply Qltb_ge. exact E.
  - right; left. reflexivity.
  - rewrite minimum_setter_array.
    destruct (existsb _ a) eqn:E; [now left|].
    right; right. split; [reflexivity|]. apply Forall_forall. intros q Hq.
    apply Qltb_ge.
    destruct (Qltb q (min_limit s)) eqn:E'; [|reflexivity].
    assert (X : existsb (fun q => Qltb q (min_limit s)) a = true)
      by (apply existsb_exists; exists q; split; assumption).
    congruence.
Qed.

Lemma maximum_setter_cases v s :
  maximum_setter v s = (s, Raise ValueError) \/
  maximum_setter v s = (s, Raise TypeError) \/
  (maximum_setter v s = (set__maximum v s, Ok tt) /\
   Forall (fun q => q <= max_limit s) (entries v)).
Proof.
  destruct v as [q|z|a].
  - rewrite maximum_setter_float. destruct (Qltb (max_limit s) q) eqn:E; [now left|].
    right; right. split; [reflexivity|]. constructor; [|constructor].
    apply Qltb_ge. exact E.
  - right; left. reflexivity.
  - rewrite maximum_setter_array.
    destruct (existsb _ a) eqn:E; [now left|].
    right; right. split; [reflexivity|]. apply Forall_forall. intros q Hq.
    apply Qltb_ge.
    destruct (Qltb (max_limit s) q) eqn:E'; [|reflexivity].
    assert (X : existsb (fun q => Qltb (max_limit s) q) a = true)
      by (apply existsb_exists; exists q; split; assumption).
    congruence.
Qed.

Lemma mutation_keeps_frozen m : keeps guarded frozen_part (apply_mutation m).
Proof.
  intros s G. destruct m as [v|v|yy]; simpl apply_mutation.
  - destruct (minimum_setter_cases v s) as [E|[E|[E _]]]; rewrite E;
      (split; [reflexivity|exact G]).
  - destruct (maximum_setter_cases v s) as [E|[E|[E _]]]; rewrite E;
      (split; [reflexivity|exact G]).
  - destruct (yy_setter_keeps yy s G) as [E G']. split; [|exact G'].
    unfold guarded_view in E. congruence.
Qed.

Lemma run_keeps_frozen ms s :
  guarded s -> frozen_part (run ms s) = frozen_part s /\ guarded (run ms s).
Proof.
  revert s. induction ms as [|m ms IH]; intros s G; [split; [reflexivity|exact G]|].
  simpl. destruct (mutation_keeps_frozen m s G) as [E G'].
  destruct (IH _ G') as [E' G'']. split; [congruence|exact G''].
Qed.

Lemma frozen_queries s s' :
  frozen_part s' = frozen_part s ->
  forall v, prob s' v = prob s v /\ cdf s' v = cdf s v /\
            quantile s' v = quantile s v /\ rescale s' v = rescale s v.
Proof.
  unfold frozen_part. intros E v. injection E as E1 E2 E3 E4 E5 E6 E7.
  unfold prob, cdf, quantile, rescale.
  rewrite E1, E2, E3, E4, E5, E6, E7. repeat split; reflexivity.
Qed.

(** C4: once the guard is set, no sequence of bound or [yy] mutations
    changes the five interpolants, so [prob], [cdf] and [rescale] return what
    they returned before, on every argument. *)
Theorem interpolants_frozen_after_first_build (s : TransInterped) (ms : list mutation) :
  init_once s = true ->
  probability_density (run ms s) = probability_density s /\
  cumulative_distribution (run ms s) = cumulative_distribution s /\
  inverse_cumulative_distribution (run ms s) = inverse_cumulative_distribution s /\
  Normalizer_calc (run ms s) = Normalizer_calc s /\
  Inv_Normalizer_calc (run ms s) = Inv_Normalizer_calc s /\
  init_once (run ms s) = true /\
  forall v, prob (run ms s) v = prob s v /\ cdf (run ms s) v = cdf s v /\
            rescale (run ms s) v = rescale s v.
Proof.
  intro G. destruct (run_keeps_frozen ms s G) as [E G'].
  pose proof (frozen_queries _ _ E) as Q.
  unfold frozen_part in E. injection E as E1 E2 E3 E4 E5 E6 E7.
  repeat split; try assumption; apply Q.
Qed.

Lemma interpolants_frozen_scenario :
  init_once (built xs5 ys5 0 4 None None) = true /\
  forall v,
    rescale (run [SetMinimum (PFloat 1); SetYY [2; 0; 2; 0; 2]; SetMaximum (PFloat 3)]
                 (built xs5 ys5 0 4 None None)) v
    = rescale (built xs5 ys5 0 4 None None) v.
Proof.
  split; [reflexivity|].
  intro v.
  apply (interpolants_frozen_after_first_build (built xs5 ys5 0 4 None None)
           [SetMinimum (PFloat 1); SetYY [2; 0; 2; 0; 2]; SetMaximum (PFloat 3)]).
  reflexivity.
Defined.

(** ** Integer bounds *)

(** C10: a Python int is never stored as a bound: the scalar branch is taken
    by floats only, and [any] of the bool that the comparison yields raises a
    TypeError before the assignment, whatever the int. *)
Theorem int_bound_raises_type_error (s : TransInterped) (z : Z) :
  minimum_setter (PInt z) s = (s, Raise TypeError) /\
  maximum_setter (PInt z) s = (s, Raise TypeError).
Proof.
  split.
  - unfold minimum_setter, bind, get, lift.
    cbn [isinstance_float py_lt py_any]. reflexivity.
  - unfold maximum_setter, bind, get, lift.
    cbn [isinstance_float py_gt py_any]. reflexivity.
Qed.

Lemma scenario_constructed :
  __init__ xs5 ys5 None None = Ok (built xs5 ys5 0 4 None None).
Proof.
  apply init_built; reflexivity.
Qed.

(** C8 at an int within the limits: on the object built from the scenario,
    whose limits are 0 and 4, assigning the int 1 to either bound raises a
    TypeError and stores nothing. *)
Theorem int_within_limits_rejected :
  let s := built xs5 ys5 0 4 None None in
  __init__ xs5 ys5 None None = Ok s /\
  min_limit s <= inject_Z 1 /\ inject_Z 1 <= max_limit s /\
  minimum_setter (PInt 1) s = (s, Raise TypeError) /\
  maximum_setter (PInt 1) s = (s, Raise TypeError).
Proof.
  intro s. split; [exact scenario_constructed|].
  split; [vm_compute; discriminate|].
  split; [vm_compute; discriminate|].
  split; reflexivity.
Qed.

(** ** Bounds and limits *)

Lemma limits_respected_view s s' :
  bounds_part s' = bounds_part s -> limits_respected s -> limits_respected s'.
Proof.
  unfold bounds_part, limits_respected. intro E.
  injection E as E1 E2 E3 E4. rewrite E1, E2, E3, E4. tauto.
Qed.

Lemma mutation_keeps_limits m s :
  guarded s -> limits_respected s ->
  guarded (fst (apply_mutation m s)) /\
  limits_respected (fst (apply_mutation m s)) /\
  min_limit (fst (apply_mutation m s)) = min_limit s /\
  max_limit (fst (apply_mutation m s)) = max_limit s.
Proof.
  intros G Hl. destruct m as [v|v|yy]; simpl apply_mutation.
  - destruct (minimum_setter_cases v s) as [E|[E|[E F]]]; rewrite E; simpl fst;
      try (repeat split; assumption).
    repeat split; try assumption.
    unfold limits_respected in *. cbn [set__minimum _minimum _maximum min_limit max_limit].
    destruct (_minimum s); [|contradiction].
    destruct (_maximum s); [|contradiction]. split; [exact F|apply Hl].
  - destruct (maximum_setter_cases v s) as [E|[E|[E F]]]; rewrite E; simpl fst;
      try (repeat split; assumption).
    repeat split; try assumption.
    unfold limits_respected in *. cbn [set__maximum _minimum _maximum min_limit max_limit].
    destruct (_minimum s); [|contradiction].
    destruct (_maximum s); [|contradiction]. split; [apply Hl|exact F].
  - destruct (yy_setter_keeps yy s G) as [E G'].
    apply (f_equal snd) in E. cbn [guarded_view snd] in E.
    split; [exact G'|]. split; [exact (limits_respected_view _ _ E Hl)|].
    unfold bounds_part in E. injection E as _ _ E3 E4. split; assumption.
Qed.

Lemma built_ordered xx0 yy0 lo hi mn mx :
  resolved_minimum lo mn <= resolved_maximum hi mx ->
  ordered_bounds (built xx0 yy0 lo hi mn mx).
Proof.
  intro B. unfold ordered_bounds, built, assemble.
  cbn [_minimum _maximum min_limit max_limit entries].
  intros a b [<-|[]] [<-|[]].
  split; [apply nanmax_ge|]. split; [exact B|apply nanmin_le].
Qed.

(** C6 as amended: every object reached from a constructed one by bound and
    [yy] mutations keeps each bound within its own hard limit, entry by
    entry, and keeps the limits themselves; the order of the two bounds is
    established by the constructor only. *)
Theorem limits_respected_when_reached xx0 yy0 mn mx s0 ms :
  __init__ xx0 yy0 mn mx = Ok s0 ->
  ordered_bounds s0 /\
  limits_respected (run ms s0) /\
  min_limit (run ms s0) = min_limit s0 /\
  max_limit (run ms s0) = max_limit s0.
Proof.
  intro H. pose proof (init_sets_guard _ _ _ _ _ H) as G.
  apply init_inv in H. destruct H as (lo & hi & _ & _ & _ & B & ->).
  split; [apply built_ordered; exact B|].
  assert (L0 : limits_respected (built xx0 yy0 lo hi mn mx)).
  { unfold limits_respected, built, assemble.
    cbn [_minimum _maximum min_limit max_limit entries].
    split; (constructor; [|constructor]); [apply nanmax_ge|apply nanmin_le]. }
  generalize dependent (built xx0 yy0 lo hi mn mx). clear.
  induction ms as [|m ms IH]; intros s G L0; [repeat split; assumption|].
  simpl. destruct (mutation_keeps_limits m s G L0) as (G' & L' & E1 & E2).
  destruct (IH _ G' L') as (L'' & E1' & E2').
  repeat split; [assumption|congruence|congruence].
Qed.

Lemma limits_respected_scenario :
  limits_respected
    (run [SetMinimum (PFloat 10); SetMaximum (PArray [-1; 2]); SetYY [1; 2; 3; 2; 1]]
         (built xs5 ys5 0 4 None None)).
Proof.
  apply (limits_respected_when_reached xs5 ys5 None None
           (built xs5 ys5 0 4 None None)
           [SetMinimum (PFloat 10); SetMaximum (PArray [-1; 2]); SetYY [1; 2; 3; 2; 1]]).
  exact scenario_constructed.
Defined.

(** C6 as stated fails: on the scenario, [minimum = 10.0] is accepted, since
    it is not below [min_limit = 0], and leaves [minimum = 10 > maximum = 4]. *)
Lemma ordered_bounds_broken_by_setter :
  ~ (forall s0 s, __init__ xs5 ys5 None None = Ok s0 ->
                  reachable s0 s -> ordered_bounds s).
Proof.
  intro H.
  specialize (H (built xs5 ys5 0 4 None None)
                (set__minimum (PFloat 10) (built xs5 ys5 0 4 None None))
                scenario_constructed).
  assert (R : reachable (built xs5 ys5 0 4 None None)
                (set__minimum (PFloat 10) (built xs5 ys5 0 4 None None))).
  { apply (reach_mutated _ (built xs5 ys5 0 4 None None) (SetMinimum (PFloat 10)));
      [apply reach_constructed|]. reflexivity. }
  specialize (H R). unfold ordered_bounds in H.
  cbn [set__minimum _minimum _maximum built assemble entries] in H.
  destruct (H 10 (resolved_maximum 4 None) (or_introl eq_refl) (or_introl eq_refl))
    as (_ & C & _).
  revert C. vm_compute. intro C. apply C. reflexivity.
Qed.

(** ** Equality *)

Lemma list_equal_refl l : Np.list_equal l l = true.
Proof.
  induction l as [|x l IH]; simpl; [reflexivity|].
  rewrite IH, andb_true_r. apply Qeq_bool_iff. reflexivity.
Qed.

Lemma linspace_head a b n :
  n <> O -> exists h t, Np.linspace a b n = h :: t /\ h == a.
Proof.
  intro N. destruct n as [|[|d]]; [contradiction| |].
  - exists a, []. split; reflexivity.
  - unfold Np.linspace. cbn [seq map app].
    eexists; eexists. split; [reflexivity|].
    change (inject_Z (Z.of_nat 0)) with 0. ring.
Qed.

(** C9 as amended: two instances constructed from the same raw arrays
    compare equal when their resolved bounds coincide, whatever bound
    arguments produced them, and compare unequal when their resolved
    minimums differ, because the stored [xx] is the grid between the bounds. *)
Theorem eq_follows_resolved_bounds xx0 yy0 mn1 mx1 mn2 mx2 a b :
  __init__ xx0 yy0 mn1 mx1 = Ok a ->
  __init__ xx0 yy0 mn2 mx2 = Ok b ->
  ~ total_mass a == 0 ->
  (trans_min a = trans_min b -> trans_max a = trans_max b ->
   __eq__ a (ATransInterped b) = true) /\
  (~ trans_min a == trans_min b -> __eq__ a (ATransInterped b) = false).
Proof.
  intros Ha Hb _.
  apply init_inv in Ha. destruct Ha as (lo & hi & Hlo & Hhi & L & B & ->).
  apply init_inv in Hb. destruct Hb as (lo' & hi' & Hlo' & Hhi' & _ & B' & ->).
  assert (lo' = lo) by congruence. assert (hi' = hi) by congruence. subst lo' hi'.
  unfold built, assemble. cbn [trans_min trans_max __eq__ xx _yy Np.array_equal].
  split.
  - intros -> ->. now rewrite !list_equal_refl.
  - intro D.
    assert (N : length xx0 <> O).
    { apply py_min_nonempty in Hlo. destruct xx0; [contradiction|discriminate]. }
    destruct (linspace_head (resolved_minimum lo mn1) (resolved_maximum hi mx1) _ N)
      as (h1 & t1 & -> & E1).
    destruct (linspace_head (resolved_minimum lo mn2) (resolved_maximum hi mx2) _ N)
      as (h2 & t2 & -> & E2).
    cbn [Np.list_equal].
    destruct (Qeq_bool h1 h2) eqn:E; [|reflexivity].
    apply Qeq_bool_iff in E. exfalso. apply D. rewrite <- E1, <- E2. exact E.
Qed.

Lemma eq_follows_resolved_bounds_scenario :
  __eq__ (built xs5 ys5 0 4 None None)
         (ATransInterped (built xs5 ys5 0 4 (Some (-1)) (Some 7))) = true.
Proof.
  refine (proj1 (eq_follows_resolved_bounds xs5 ys5 None None (Some (-1)) (Some 7)
                   (built xs5 ys5 0 4 None None)
                   (built xs5 ys5 0 4 (Some (-1)) (Some 7)) _ _ _) _ _).
  - exact scenario_constructed.
  - apply init_built; reflexivity.
  - vm_compute. discriminate.
  - reflexivity.
  - reflexivity.
Defined.

(** C9 as stated fails: the scenario built with the default bounds and with
    [minimum = 1.0] stores the grids [0, 1, 2, 3, 4] and
    [1, 1.75, 2.5, 3.25, 4], which [__eq__] finds different. *)
Lemma eq_false_for_different_bounds :
  exists a b,
    __init__ xs5 ys5 None None = Ok a /\
    __init__ xs5 ys5 (Some 1) None = Ok b /\
    __eq__ a (ATransInterped b) = false.
Proof.
  exists (built xs5 ys5 0 4 None None), (built xs5 ys5 0 4 (Some 1) None).
  split; [exact scenario_constructed|].
  split; [apply init_built; reflexivity|].
  vm_compute. reflexivity.
Qed.

(** ** Construction *)

Lemma call_total f v :
  Np.bounds_error f = false -> Np.knots f <> [] ->
  Np.call f v = Ok (nd_map (interp_val f) v).
Proof.
  intros B K. destruct v as [q|a|rows]; unfold Np.call, nd_map.
  - rewrite (interp_at_total f q B K). reflexivity.
  - rewrite (rmap_total _ (interp_val f)); [reflexivity|].
    intros; apply interp_at_total; assumption.
  - rewrite (rmap_total _ (map (interp_val f))); [reflexivity|].
    intros; apply rmap_total. intros; apply interp_at_total; assumption.
Qed.

Lemma knots_nonempty x y :
  length x = length y -> x <> [] -> Np.sort_knots (combine x y) <> [].
Proof.
  intros L N. apply sort_knots_nonempty, combine_nonempty; assumption.
Qed.

Lemma assemble_usable lo hi tmin tmax master grid y :
  length grid = length y -> grid <> [] ->
  usable (assemble lo hi tmin tmax master grid y).
Proof.
  intros L N. split; [reflexivity|]. intro v.
  assert (Lnn : length grid = length (Np.cumtrapz y grid))
    by now rewrite cumtrapz_length.
  assert (Ly' : length grid = length (map (fun v => v / Np.trapz y grid) y))
    by now rewrite length_map.
  assert (Lcum : length grid =
                 length (Np.set_last (Np.cumtrapz (map (fun v => v / Np.trapz y grid) y) grid) 1))
    by now rewrite set_last_length, cumtrapz_length.
  assert (Nnn : Np.cumtrapz y grid <> [])
    by (intro E; rewrite E in Lnn; destruct grid; [easy|discriminate]).
  unfold prob, cdf, rescale, assemble.
  cbn [probability_density cumulative_distribution Normalizer_calc
       Inv_Normalizer_calc trans_min trans_max attr rbind].
  split; [|split].
  - eexists. apply call_total; [reflexivity|]. apply knots_nonempty; assumption.
  - eexists. apply call_total; [reflexivity|]. apply knots_nonempty; assumption.
  - rewrite !(mk_interp_total grid _ 0 0) by assumption. cbn [rbind].
    rewrite call_total;
      [|reflexivity|apply knots_nonempty; [symmetry; assumption|assumption]].
    cbn [rbind]. destruct v; cbn [Np.asarray nd_map]; eexists; reflexivity.
Qed.





(** ** Rescaling *)

(** C1: on a constructed object, also after later mutations, [rescale]
    evaluates [Inv_Normalizer_calc] at [y_lo + (y_hi - y_lo) * val], where
    [y_lo] and [y_hi] are [Normalizer_calc] at the bounds resolved by the
    constructor; a scalar gives a float and an array an array of its length. *)
Theorem rescale_formula xx0 yy0 mn mx s ms :
  __init__ xx0 yy0 mn mx = Ok s ->
  exists N I y_lo y_hi,
    Normalizer_calc s = Some N /\ Inv_Normalizer_calc s = Some I /\
    Np.interp_at N (trans_min s) = Ok y_lo /\
    Np.interp_at N (trans_max s) = Ok y_hi /\
    (forall lo hi, Np.py_min xx0 = Ok lo -> Np.py_max xx0 = Ok hi ->
       trans_min (run ms s) = resolved_minimum lo mn /\
       trans_max (run ms s) = resolved_maximum hi mx) /\
    (forall v, exists r,
       Np.interp_at I (y_lo + (y_hi - y_lo) * v) = Ok r /\
       rescale (run ms s) (PFloat v) = Ok (RFloat r)) /\
    (forall z, exists r,
       Np.interp_at I (y_lo + (y_hi - y_lo) * inject_Z z) = Ok r /\
       rescale (run ms s) (PInt z) = Ok (RFloat r)) /\
    (forall a, exists rs,
       rmap (Np.interp_at I) (map (fun v => y_lo + (y_hi - y_lo) * v) a) = Ok rs /\
       length rs = length a /\
       rescale (run ms s) (PArray a) = Ok (RArray (Arr1 rs))).
Proof.
  intro H. pose proof (init_sets_guard _ _ _ _ _ H) as G.
  destruct (run_keeps_frozen ms s G) as [E _].
  pose proof (frozen_queries _ _ E) as Q.
  assert (T : trans_min (run ms s) = trans_min s /\ trans_max (run ms s) = trans_max s).
  { unfold frozen_part in E. injection E as _ _ _ _ _ E6 E7. split; assumption. }
  destruct T as [T1 T2]. clear E G.
  apply init_inv in H. destruct H as (lo & hi & Hlo & Hhi & L & B & ->).
  set (tmin := resolved_minimum lo mn) in *.
  set (tmax := resolved_maximum hi mx) in *.
  set (grid := Np.linspace tmin tmax (length xx0)).
  set (y := map (interp_val (master_of xx0 yy0)) grid).
  assert (Lg : length grid = length xx0) by apply linspace_length.
  assert (Ng : grid <> []).
  { intro E. rewrite E in Lg. apply py_min_nonempty in Hlo.
    destruct xx0; [contradiction|discriminate]. }
  assert (Lnn : length grid = length (Np.cumtrapz y grid))
    by (rewrite cumtrapz_length; [reflexivity|unfold y; now rewrite length_map]).
  assert (Nnn : Np.cumtrapz y grid <> [])
    by (intro E; rewrite E in Lnn; destruct grid; [easy|discriminate]).
  set (N := Np.mk_interp (Np.sort_knots (combine grid (Np.cumtrapz y grid))) false 0 0).
  set (I := Np.mk_interp (Np.sort_knots (combine (Np.cumtrapz y grid) grid)) false 0 0).
  assert (HN : forall q, Np.interp_at N q = Ok (interp_val N q))
    by (intro q; apply mk_interp_total; assumption).
  assert (HI : forall q, Np.interp_at I q = Ok (interp_val I q))
    by (intro q; apply mk_interp_total; [symmetry; assumption|assumption]).
  exists N, I, (interp_val N tmin), (interp_val N tmax).
  assert (R : forall v, rescale (built xx0 yy0 lo hi mn mx) v =
    rbind (Np.call I (nd_map (fun w => interp_val N tmin + (interp_val N tmax - interp_val N tmin) * w)
                        (Np.asarray v)))
      (fun rescaled => match rescaled with
                       | Arr0 q => Ok (RFloat q)
                       | _ => Ok (RArray rescaled)
                       end)).
  { intro v. unfold rescale, built, assemble.
    cbn [Normalizer_calc Inv_Normalizer_calc trans_min trans_max attr rbind].
    fold tmin tmax grid y N I. rewrite !HN. reflexivity. }
  split; [reflexivity|]. split; [reflexivity|].
  split; [apply HN|]. split; [apply HN|].
  split.
  { intros lo' hi' Hlo' Hhi'.
    assert (lo' = lo) by congruence. assert (hi' = hi) by congruence. subst.
    rewrite T1, T2. split; reflexivity. }
  split; [|split].
  - intro v. eexists. split; [apply HI|].
    rewrite (proj2 (proj2 (proj2 (Q (PFloat v))))), R.
    cbn [Np.asarray nd_map Np.call]. rewrite HI. reflexivity.
  - intro z. eexists. split; [apply HI|].
    rewrite (proj2 (proj2 (proj2 (Q (PInt z))))), R.
    cbn [Np.asarray nd_map Np.call]. rewrite HI. reflexivity.
  - intro a. eexists. split; [apply rmap_total; intros; apply HI|].
    split; [now rewrite !length_map|].
    rewrite (proj2 (proj2 (proj2 (Q (PArray a))))), R.
    cbn [Np.asarray nd_map Np.call].
    rewrite (rmap_total _ (interp_val I)) by (intros; apply HI). reflexivity.
Qed.

Lemma rescale_formula_scenario :
  exists r, rescale (run [SetMaximum (PFloat 2)] (built xs5 ys5 0 4 None None))
                    (PFloat (1 # 2)) = Ok (RFloat r).
Proof.
  destruct (rescale_formula xs5 ys5 None None (built xs5 ys5 0 4 None None)
              [SetMaximum (PFloat 2)] scenario_constructed)
    as (N & I & y_lo & y_hi & _ & _ & _ & _ & _ & F & _).
  destruct (F (1 # 2)) as (r & _ & E). exists r. exact E.
Defined.

(** ** Piecewise-linear interpolation *)

Lemma last_cons {A : Type} (a d : A) (l : list A) : last (a :: l) d = last l a.
Proof.
  revert a d. induction l as [|b l IH]; intros a d; [reflexivity|].
  change (last (a :: b :: l) d) with (last (b :: l) d).
  now rewrite !IH.
Qed.

Lemma segment_between x0 x1 y0 y1 q m :
  x0 <= q -> q < x1 -> m <= y0 -> m <= y1 ->
  m <= (y1 - y0) / (x1 - x0) * (q - x0) + y0.
Proof.
  intros H0 H1 M0 M1.
  assert (D : 0 < x1 - x0) by lra.
  assert (E : (y1 - y0) / (x1 - x0) * (q - x0) + y0 - m
              == ((y1 - m) * (q - x0) + (y0 - m) * (x1 - q)) / (x1 - x0))
    by (field; lra).
  assert (P : 0 <= ((y1 - m) * (q - x0) + (y0 - m) * (x1 - q)) / (x1 - x0)).
  { apply Qle_shift_div_l; [exact D|]. rewrite Qmult_0_l.
    assert (0 <= (y1 - m) * (q - x0)) by (apply Qmult_le_0_compat; lra).
    assert (0 <= (y0 - m) * (x1 - q)) by (apply Qmult_le_0_compat; lra).
    lra. }
  lra.
Qed.

Lemma segment_below x0 x1 y0 y1 q m :
  x0 <= q -> q < x1 -> y0 <= m -> y1 <= m ->
  (y1 - y0) / (x1 - x0) * (q - x0) + y0 <= m.
Proof.
  intros H0 H1 M0 M1.
  assert (D : 0 < x1 - x0) by lra.
  assert (E : m - ((y1 - y0) / (x1 - x0) * (q - x0) + y0)
              == ((m - y1) * (q - x0) + (m - y0) * (x1 - q)) / (x1 - x0))
    by (field; lra).
  assert (P : 0 <= ((m - y1) * (q - x0) + (m - y0) * (x1 - q)) / (x1 - x0)).
  { apply Qle_shift_div_l; [exact D|]. rewrite Qmult_0_l.
    assert (0 <= (m - y1) * (q - x0)) by (apply Qmult_le_0_compat; lra).
    assert (0 <= (m - y0) * (x1 - q)) by (apply Qmult_le_0_compat; lra).
    lra. }
  lra.
Qed.

Lemma segment_monotone x0 x1 y0 y1 a b :
  x0 < x1 -> y0 <= y1 -> a <= b ->
  (y1 - y0) / (x1 - x0) * (a - x0) + y0 <= (y1 - y0) / (x1 - x0) * (b - x0) + y0.
Proof.
  intros D Y AB.
  assert (E : (y1 - y0) / (x1 - x0) * (b - x0) + y0
              - ((y1 - y0) / (x1 - x0) * (a - x0) + y0)
              == ((y1 - y0) * (b - a)) / (x1 - x0))
    by (field; lra).
  assert (P : 0 <= ((y1 - y0) * (b - a)) / (x1 - x0)).
  { apply Qle_shift_div_l; [lra|]. rewrite Qmult_0_l.
    apply Qmult_le_0_compat; lra. }
  lra.
Qed.

(** The scan of [np_interp], case by case. *)
Lemma np_interp_right x0 y0 x1 y1 l q :
  x1 <= q -> Np.np_interp x0 y0 ((x1, y1) :: l) q = Np.np_interp x1 y1 l q.
Proof.
  intro H. simpl. apply Qle_bool_iff in H. now rewrite H.
Qed.

Lemma np_interp_knot x0 y0 x1 y1 l q :
  q < x1 -> x0 == q -> Np.np_interp x0 y0 ((x1, y1) :: l) q = y0.
Proof.
  intros H E. simpl.
  destruct (Qle_bool x1 q) eqn:B; [apply Qle_bool_iff in B; lra|].
  apply Qeq_bool_iff in E. now rewrite E.
Qed.

Lemma np_interp_segment x0 y0 x1 y1 l q :
  q < x1 -> ~ x0 == q ->
  Np.np_interp x0 y0 ((x1, y1) :: l) q = (y1 - y0) / (x1 - x0) * (q - x0) + y0.
Proof.
  intros H E. simpl.
  destruct (Qle_bool x1 q) eqn:B; [apply Qle_bool_iff in B; lra|].
  destruct (Qeq_bool x0 q) eqn:B'; [apply Qeq_bool_iff in B'; contradiction|].
  reflexivity.
Qed.

Lemma np_interp_cases x0 y0 x1 y1 l q :
  (x1 <= q /\ Np.np_interp x0 y0 ((x1, y1) :: l) q = Np.np_interp x1 y1 l q) \/
  (q < x1 /\ x0 == q /\ Np.np_interp x0 y0 ((x1, y1) :: l) q = y0) \/
  (q < x1 /\ ~ x0 == q /\
   Np.np_interp x0 y0 ((x1, y1) :: l) q = (y1 - y0) / (x1 - x0) * (q - x0) + y0).
Proof.
  destruct (Qlt_le_dec q x1) as [H|H].
  - destruct (Qeq_dec x0 q) as [E|E].
    + right; left. auto using np_interp_knot.
    + right; right. auto using np_interp_segment.
  - left. auto using np_interp_right.
Qed.

(** Interpolated values stay above a lower bound of the ordinates. *)
Lemma np_interp_lower m l : forall x0 y0 q,
  x0 <= q -> Forall (fun k => m <= snd k) ((x0, y0) :: l) ->
  m <= Np.np_interp x0 y0 l q.
Proof.
  induction l as [|[x1 y1] l IH]; intros x0 y0 q H F.
  - simpl. inversion F; assumption.
  - inversion F as [|k ks F0 F1]; subst. simpl in F0.
    destruct (np_interp_cases x0 y0 x1 y1 l q) as [[C ->]|[(C & E & ->)|(C & E & ->)]].
    + apply IH; assumption.
    + exact F0.
    + apply segment_between; try assumption. inversion F1; assumption.
Qed.

Lemma kchain_weaken (Rx Ry Rx' Ry' : Q -> Q -> Prop) :
  (forall a b, Rx a b -> Rx' a b) -> (forall a b, Ry a b -> Ry' a b) ->
  forall l k0, kchain Rx Ry k0 l -> kchain Rx' Ry' k0 l.
Proof.
  intros HX HY. induction l as [|k1 l IH]; intros k0 H; [exact I|].
  destruct H as (A & B & C). repeat split; auto.
Qed.

(** On knots with non-decreasing ordinates the interpolant lies between the
    current ordinate and the last one. *)
Lemma np_interp_range l : forall x0 y0 q,
  x0 <= q -> kchain any_order Qle (x0, y0) l ->
  y0 <= Np.np_interp x0 y0 l q /\
  Np.np_interp x0 y0 l q <= snd (last l (x0, y0)).
Proof.
  induction l as [|[x1 y1] l IH]; intros x0 y0 q H K.
  - simpl. split; apply Qle_refl.
  - destruct K as (_ & Y & K). simpl in Y.
    assert (LY : y1 <= snd (last l (x1, y1))).
    { destruct (IH x1 y1 x1 (Qle_refl _) K) as [A B].
      eapply Qle_trans; eassumption. }
    assert (EL := last_cons (x1, y1) (x0, y0) l).
    rewrite EL.
    destruct (np_interp_cases x0 y0 x1 y1 l q) as [[C ->]|[(C & E & ->)|(C & E & ->)]].
    + destruct (IH x1 y1 q C K) as [A B]. split; [lra|exact B].
    + split; [apply Qle_refl|lra].
    + split.
      * apply segment_between; try assumption; lra.
      * eapply Qle_trans; [|exact LY]. apply segment_below; try assumption; lra.
Qed.

(** On knots with non-decreasing abscissas and ordinates the interpolant is
    non-decreasing. *)
Lemma np_interp_monotone l : forall x0 y0 a b,
  x0 <= a -> a <= b -> kchain Qle Qle (x0, y0) l ->
  Np.np_interp x0 y0 l a <= Np.np_interp x0 y0 l b.
Proof.
  induction l as [|[x1 y1] l IH]; intros x0 y0 a b H AB K.
  - simpl. apply Qle_refl.
  - destruct K as (X & Y & K). simpl in X, Y.
    assert (K' : kchain any_order Qle (x1, y1) l)
      by (revert K; apply kchain_weaken; unfold any_order; auto).
    destruct (np_interp_cases x0 y0 x1 y1 l a) as [[Ca ->]|[(Ca & Ea & ->)|(Ca & Ea & ->)]];
    destruct (np_interp_cases x0 y0 x1 y1 l b) as [[Cb ->]|[(Cb & Eb & ->)|(Cb & Eb & ->)]];
      try lra.
    + apply IH; assumption.
    + destruct (np_interp_range l x1 y1 b Cb K') as [A _]. lra.
    + apply segment_between; try assumption; lra.
    + destruct (np_interp_range l x1 y1 b Cb K') as [A _].
      eapply Qle_trans; [|exact A]. apply segment_below; try assumption; lra.
    + apply segment_monotone; lra.
Qed.

Lemma kchain_head_le Ry l : forall k0,
  kchain Qle Ry k0 l -> forall k, In k l -> fst k0 <= fst k.
Proof.
  induction l as [|k1 l IH]; intros k0 K k H; [contradiction|].
  destruct K as (X & _ & K). destruct H as [<-|H]; [exact X|].
  eapply Qle_trans; [exact X|]. apply IH; assumption.
Qed.

Lemma kchain_head_lt Ry l : forall k0,
  kchain Qlt Ry k0 l -> forall k, In k l -> fst k0 < fst k.
Proof.
  induction l as [|k1 l IH]; intros k0 K k H; [contradiction|].
  destruct K as (X & _ & K). destruct H as [<-|H]; [exact X|].
  eapply Qlt_trans; [exact X|]. apply IH; assumption.
Qed.

Lemma kchain_le_last Ry l : forall k0,
  kchain Qle Ry k0 l -> fst k0 <= fst (last l k0).
Proof.
  induction l as [|k1 l IH]; intros k0 K; [apply Qle_refl|].
  destruct K as (X & _ & K). rewrite last_cons.
  eapply Qle_trans; [exact X|]. apply IH; assumption.
Qed.

Lemma kchain_lt_le Ry l k0 : kchain Qlt Ry k0 l -> kchain Qle Ry k0 l.
Proof. apply kchain_weaken; auto using Qlt_le_weak. Qed.

(** At or past the last knot [np_interp] returns the last ordinate. *)
Lemma np_interp_past_last Ry l : forall x0 y0 q,
  kchain Qle Ry (x0, y0) l -> fst (last l (x0, y0)) <= q ->
  Np.np_interp x0 y0 l q = snd (last l (x0, y0)).
Proof.
  induction l as [|[x1 y1] l IH]; intros x0 y0 q K H; [reflexivity|].
  destruct K as (_ & _ & K). rewrite last_cons in *.
  rewrite np_interp_right.
  - apply IH; assumption.
  - eapply Qle_trans; [|exact H]. apply (kchain_le_last Ry l (x1, y1) K).
Qed.

(** A query that equals the abscissa of a knot returns the ordinate of a knot
    with that abscissa. *)
Lemma np_interp_hits_knot Ry l : forall x0 y0 q,
  kchain Qle Ry (x0, y0) l ->
  (exists k, In k ((x0, y0) :: l) /\ fst k == q) ->
  exists k, In k ((x0, y0) :: l) /\ fst k == q /\ Np.np_interp x0 y0 l q = snd k.
Proof.
  induction l as [|[x1 y1] l IH]; intros x0 y0 q K (k & Hk & E).
  - destruct Hk as [<-|[]]. exists (x0, y0). simpl. auto.
  - pose proof K as (X & _ & K'). simpl in X.
    destruct (np_interp_cases x0 y0 x1 y1 l q) as [[C ->]|[(C & E' & ->)|(C & E' & _)]].
    + destruct (IH x1 y1 q K') as (k' & Hk' & Ek' & R).
      * destruct Hk as [<-|Hk].
        -- exists (x1, y1). split; [left; reflexivity|]. simpl in *. lra.
        -- exists k. auto.
      * exists k'. split; [right; exact Hk'|]. auto.
    + exists (x0, y0). split; [left; reflexivity|]. auto.
    + exfalso. destruct Hk as [<-|Hk]; [simpl in E; contradiction|].
      assert (x1 <= fst k).
      { destruct Hk as [<-|Hk]; [apply Qle_refl|].
        apply (kchain_head_le Ry l (x1, y1) K' k Hk). }
      lra.
Qed.

Lemma strict_knots_functional Ry l : forall k0 k k',
  kchain Qlt Ry k0 l -> In k (k0 :: l) -> In k' (k0 :: l) ->
  fst k == fst k' -> k = k'.
Proof.
  induction l as [|k1 l IH]; intros k0 k k' K H H' E.
  - destruct H as [<-|[]], H' as [<-|[]]. reflexivity.
  - pose proof K as (_ & _ & K').
    destruct H as [<-|H], H' as [<-|H'].
    + reflexivity.
    + pose proof (kchain_head_lt Ry _ _ K k' H'). lra.
    + pose proof (kchain_head_lt Ry _ _ K k H). lra.
    + apply (IH k1); assumption.
Qed.

(** On knots with increasing abscissas a query on a knot returns its
    ordinate. *)
Lemma np_interp_at_knot Ry l x0 y0 x y :
  kchain Qlt Ry (x0, y0) l -> In (x, y) ((x0, y0) :: l) ->
  Np.np_interp x0 y0 l x = y.
Proof.
  intros K H.
  destruct (np_interp_hits_knot Ry l x0 y0 x (kchain_lt_le _ _ _ K))
    as (k & Hk & E & R).
  - exists (x, y). split; [exact H|reflexivity].
  - rewrite R.
    now rewrite (strict_knots_functional Ry l (x0, y0) k (x, y) K Hk H E).
Qed.

(** Evaluation of an interpolant with known knots. *)
Lemma interp_at_inside x0 y0 l be lo hi q :
  x0 <= q -> q <= fst (last l (x0, y0)) ->
  Np.interp_at (Np.mk_interp ((x0, y0) :: l) be lo hi) q = Ok (Np.np_interp x0 y0 l q).
Proof.
  intros A B. unfold Np.interp_at. cbn [Np.knots].
  apply Qltb_ge in A. apply Qltb_ge in B. now rewrite A, B.
Qed.

Lemma interp_at_below x0 y0 l be lo hi q :
  q < x0 ->
  Np.interp_at (Np.mk_interp ((x0, y0) :: l) be lo hi) q
  = if be then Raise ValueError else Ok lo.
Proof.
  intro A. unfold Np.interp_at. cbn [Np.knots Np.bounds_error Np.fill_below].
  apply Qltb_lt in A. now rewrite A.
Qed.

Lemma interp_at_above x0 y0 l be lo hi q :
  x0 <= q -> fst (last l (x0, y0)) < q ->
  Np.interp_at (Np.mk_interp ((x0, y0) :: l) be lo hi) q
  = if be then Raise ValueError else Ok hi.
Proof.
  intros A B. unfold Np.interp_at. cbn [Np.knots Np.bounds_error Np.fill_above].
  apply Qltb_ge in A. apply Qltb_lt in B. now rewrite A, B.
Qed.

(** ** Sorting the knots *)

Lemma sort_knots_sorted Ry l k0 :
  kchain Qle Ry k0 l -> Np.sort_knots (k0 :: l) = k0 :: l.
Proof.
  revert k0. induction l as [|k1 l IH]; intros k0 K; [reflexivity|].
  destruct K as (X & _ & K).
  change (Np.sort_knots (k0 :: k1 :: l)) with (Np.insert_knot k0 (Np.sort_knots (k1 :: l))).
  rewrite (IH k1 K). simpl. apply Qle_bool_iff in X. now rewrite X.
Qed.

Lemma insert_knot_Forall (P : Q * Q -> Prop) k l :
  P k -> Forall P l -> Forall P (Np.insert_knot k l).
Proof.
  intros Hk. induction 1 as [|k' l Hk' F IH]; simpl.
  - constructor; [exact Hk|constructor].
  - destruct (Qle_bool (fst k) (fst k')); repeat constructor; assumption.
Qed.

Lemma sort_knots_Forall (P : Q * Q -> Prop) l :
  Forall P l -> Forall P (Np.sort_knots l).
Proof.
  induction 1 as [|k l Hk F IH]; simpl; [constructor|].
  apply insert_knot_Forall; assumption.
Qed.

Lemma combine_Forall_snd (P : Q -> Prop) x y :
  Forall P y -> Forall (fun k : Q * Q => P (snd k)) (combine x y).
Proof.
  intro F. revert x. induction F as [|b y Hb F IH]; intros [|a x]; simpl;
    try constructor; auto.
Qed.

Lemma kchain_combine (Rx Ry : Q -> Q -> Prop) xs : forall x0 y0 ys,
  chain Rx x0 xs -> chain Ry y0 ys ->
  kchain Rx Ry (x0, y0) (combine xs ys).
Proof.
  induction xs as [|x1 xs IH]; intros x0 y0 ys CX CY; [exact I|].
  destruct ys as [|y1 ys]; [exact I|].
  destruct CX as [X CX], CY as [Y CY]. simpl. auto.
Qed.

Lemma chain_weaken (R R' : Q -> Q -> Prop) :
  (forall a b, R a b -> R' a b) -> forall l x0, chain R x0 l -> chain R' x0 l.
Proof.
  intro H. induction l as [|x1 l IH]; intros x0 C; [exact I|].
  destruct C as [A C]. split; auto.
Qed.

Lemma chain_any l x0 : chain any_order x0 l.
Proof.
  revert x0. induction l as [|x1 l IH]; intro x0; [exact I|].
  split; [exact I|apply IH].
Qed.

Lemma last_combine_fst (xs ys : list Q) : forall x0 y0,
  length xs = length ys ->
  fst (last (combine xs ys) (x0, y0)) = last xs x0.
Proof.
  revert ys. induction xs as [|x1 xs IH]; intros ys x0 y0 L.
  - reflexivity.
  - destruct ys as [|y1 ys]; [discriminate|].
    change (combine (x1 :: xs) (y1 :: ys)) with ((x1, y1) :: combine xs ys).
    rewrite !last_cons. apply IH. simpl in L. congruence.
Qed.

Lemma last_combine_snd (xs ys : list Q) : forall x0 y0,
  length xs = length ys ->
  snd (last (combine xs ys) (x0, y0)) = last ys y0.
Proof.
  revert ys. induction xs as [|x1 xs IH]; intros ys x0 y0 L.
  - destruct ys; [reflexivity|discriminate].
  - destruct ys as [|y1 ys]; [discriminate|].
    change (combine (x1 :: xs) (y1 :: ys)) with ((x1, y1) :: combine xs ys).
    rewrite !last_cons. apply IH. simpl in L. congruence.
Qed.

Lemma in_combine_swap (xs ys : list Q) a b :
  In (a, b) (combine xs ys) -> In (b, a) (combine ys xs).
Proof.
  revert ys. induction xs as [|x xs IH]; intros [|y ys] H; try contradiction.
  destruct H as [H|H]; [left; congruence|right; auto].
Qed.

(** ** The grid *)

Lemma inject_Z_succ (j : nat) :
  inject_Z (Z.of_nat (S j)) == inject_Z (Z.of_nat j) + 1.
Proof.
  rewrite Nat2Z.inj_succ. unfold Z.succ. rewrite inject_Z_plus. reflexivity.
Qed.

Lemma inject_Z_pos (j : nat) : 0 < inject_Z (Z.of_nat (S j)).
Proof.
  unfold Qlt. simpl. lia.
Qed.

Lemma chain_map_seq (R : Q -> Q -> Prop) (f : nat -> Q) (b : Q) : forall k i,
  (forall j, (i <= j < i + k)%nat -> R (f j) (f (S j))) ->
  R (f (i + k)%nat) b ->
  chain R (f i) (map f (seq (S i) k) ++ [b]).
Proof.
  induction k as [|k IH]; intros i H Hb.
  - simpl. rewrite Nat.add_0_r in Hb. auto.
  - cbn [seq map app chain]. split; [apply H; lia|].
    apply IH.
    + intros j Hj. apply H. lia.
    + now replace (S i + k)%nat with (i + S k)%nat by lia.
Qed.

Lemma linspace_unfold a b d :
  Np.linspace a b (S (S d)) =
  (inject_Z (Z.of_nat 0) * ((b - a) / inject_Z (Z.of_nat (S d))) + a)
  :: (map (fun i => inject_Z (Z.of_nat i) * ((b - a) / inject_Z (Z.of_nat (S d))) + a)
          (seq 1 d) ++ [b]).
Proof. reflexivity. Qed.

Lemma linspace_step_sum a b d :
  inject_Z (Z.of_nat d) * ((b - a) / inject_Z (Z.of_nat (S d))) + a
  + (b - a) / inject_Z (Z.of_nat (S d)) == b.
Proof.
  pose proof (inject_Z_pos d) as P. pose proof (inject_Z_succ d) as E.
  set (n := inject_Z (Z.of_nat (S d))) in *.
  set (m := inject_Z (Z.of_nat d)) in *.
  assert (X : m == n - 1) by lra.
  rewrite X. field. lra.
Qed.

Lemma linspace_sorted (R : Q -> Q -> Prop) a b :
  (forall x s, 0 < s -> R x (x + s)) ->
  (forall x y z, R x y -> y == z -> R x z) ->
  a < b ->
  forall n h t, Np.linspace a b n = h :: t -> chain R h t.
Proof.
  intros Rstep Rcomp AB n h t E.
  destruct n as [|[|d]]; [discriminate| |].
  - injection E as <- <-. exact I.
  - rewrite linspace_unfold in E. injection E as <- <-.
    pose proof (inject_Z_pos d) as P.
    assert (S0 : 0 < (b - a) / inject_Z (Z.of_nat (S d))).
    { apply Qlt_shift_div_l; [exact P|]. lra. }
    apply (chain_map_seq R
             (fun i => inject_Z (Z.of_nat i) * ((b - a) / inject_Z (Z.of_nat (S d))) + a)
             b d 0%nat).
    + intros j _. eapply Rcomp; [apply (Rstep _ _ S0)|].
      rewrite (inject_Z_succ j). ring.
    + cbn [Nat.add]. eapply Rcomp; [apply (Rstep _ _ S0)|].
      apply linspace_step_sum.
Qed.

Lemma linspace_increasing a b n h t :
  a < b -> Np.linspace a b n = h :: t -> chain Qlt h t.
Proof.
  intros AB E. apply (linspace_sorted Qlt a b) with (n := n); try assumption.
  - intros; lra.
  - intros x y z H E'. lra.
Qed.

Lemma linspace_constant a b n h t :
  a == b -> Np.linspace a b n = h :: t -> chain Qle h t.
Proof.
  intros AB E.
  destruct n as [|[|d]]; [discriminate| |].
  - injection E as <- <-. exact I.
  - rewrite linspace_unfold in E. injection E as <- <-.
    pose proof (inject_Z_pos d) as P.
    assert (S0 : (b - a) / inject_Z (Z.of_nat (S d)) == 0).
    { assert (Z0 : b - a == 0) by lra. rewrite Z0. field. lra. }
    apply (chain_map_seq Qle
             (fun i => inject_Z (Z.of_nat i) * ((b - a) / inject_Z (Z.of_nat (S d))) + a)
             b d 0%nat).
    + intros j _. rewrite !S0. lra.
    + cbn [Nat.add]. rewrite S0. lra.
Qed.

Lemma linspace_nondecreasing a b n h t :
  a <= b -> Np.linspace a b n = h :: t -> chain Qle h t.
Proof.
  intros AB E. destruct (Qlt_le_dec a b) as [L|L].
  - apply (chain_weaken Qlt Qle Qlt_le_weak). eapply linspace_increasing; eassumption.
  - eapply linspace_constant; [|eassumption]. lra.
Qed.

Lemma linspace_last a b n d : (2 <= n)%nat -> last (Np.linspace a b n) d = b.
Proof.
  intro H. destruct n as [|[|k]]; try lia.
  unfold Np.linspace. apply last_last.
Qed.

(** ** Trapezoidal integration *)

Lemma cumtrapz_from_chain xs : forall acc x0 y0 ys,
  chain Qle x0 xs -> 0 <= y0 -> Forall (fun y => 0 <= y) ys ->
  chain Qle acc (Np.cumtrapz_from acc x0 y0 xs ys).
Proof.
  induction xs as [|x1 xs IH]; intros acc x0 y0 ys C Y0 F; [exact I|].
  destruct ys as [|y1 ys]; [exact I|].
  destruct C as [X C]. inversion F as [|? ? Y1 F']; subst.
  cbn [Np.cumtrapz_from chain]. split.
  - assert (P : 0 <= (x1 - x0) * (y1 + y0)) by (apply Qmult_le_0_compat; lra).
    set (p := (x1 - x0) * (y1 + y0)) in *.
    assert (P2 : 0 <= p / 2) by (apply Qle_shift_div_l; lra).
    lra.
  - apply IH; assumption.
Qed.

Lemma trapz_from_last xs : forall acc x0 y0 ys,
  Np.trapz_from acc x0 y0 xs ys = last (Np.cumtrapz_from acc x0 y0 xs ys) acc.
Proof.
  induction xs as [|x1 xs IH]; intros acc x0 y0 ys; [reflexivity|].
  destruct ys as [|y1 ys]; [reflexivity|].
  cbn [Np.trapz_from Np.cumtrapz_from]. rewrite last_cons. apply IH.
Qed.

Lemma trapz_last y x : Np.trapz y x = last (Np.cumtrapz y x) 0.
Proof.
  destruct x as [|x0 xs], y as [|y0 ys]; try reflexivity.
  unfold Np.trapz, Np.cumtrapz. rewrite last_cons. apply trapz_from_last.
Qed.

Lemma trapz_from_shift xs : forall acc x0 y0 ys,
  Np.trapz_from acc x0 y0 xs ys == acc + Np.trapz_from 0 x0 y0 xs ys.
Proof.
  induction xs as [|x1 xs IH]; intros acc x0 y0 ys; [simpl; ring|].
  destruct ys as [|y1 ys]; [simpl; ring|].
  cbn [Np.trapz_from].
  rewrite (IH (acc + (x1 - x0) * (y1 + y0) / 2)).
  rewrite (IH (0 + (x1 - x0) * (y1 + y0) / 2)). ring.
Qed.

Lemma trapz_from_scale T xs : forall x0 y0 ys,
  ~ T == 0 ->
  Np.trapz_from 0 x0 (y0 / T) xs (map (fun v => v / T) ys)
  == Np.trapz_from 0 x0 y0 xs ys / T.
Proof.
  induction xs as [|x1 xs IH]; intros x0 y0 ys NT; [simpl; field; exact NT|].
  destruct ys as [|y1 ys]; [simpl; field; exact NT|].
  cbn [Np.trapz_from map].
  rewrite (trapz_from_shift xs (0 + (x1 - x0) * (y1 / T + y0 / T) / 2)).
  rewrite (trapz_from_shift xs (0 + (x1 - x0) * (y1 + y0) / 2)).
  rewrite (IH x1 y1 ys NT). field. exact NT.
Qed.

Lemma trapz_normalised y x :
  ~ Np.trapz y x == 0 ->
  Np.trapz (map (fun v => v / Np.trapz y x) y) x == 1.
Proof.
  intro NT. destruct x as [|x0 xs], y as [|y0 ys];
    try (exfalso; apply NT; reflexivity).
  set (T := Np.trapz (y0 :: ys) (x0 :: xs)) in *.
  cbn [map Np.trapz]. rewrite (trapz_from_scale T xs x0 y0 ys NT).
  change (Np.trapz_from 0 x0 y0 xs ys) with T. field. exact NT.
Qed.

Lemma set_last_chain l : forall x0 v,
  l <> [] -> chain Qle x0 l -> last l x0 <= v -> chain Qle x0 (Np.set_last l v).
Proof.
  induction l as [|x l IH]; intros x0 v N C H; [contradiction|].
  destruct C as [X C]. rewrite last_cons in H.
  destruct l as [|x' l].
  - simpl in *. split; [lra|exact I].
  - change (Np.set_last (x :: x' :: l) v) with (x :: Np.set_last (x' :: l) v).
    split; [exact X|]. apply IH; [discriminate|exact C|exact H].
Qed.

Lemma last_set_last l : forall v d, l <> [] -> last (Np.set_last l v) d = v.
Proof.
  induction l as [|x l IH]; intros v d N; [contradiction|].
  destruct l as [|x' l]; [reflexivity|].
  change (Np.set_last (x :: x' :: l) v) with (x :: Np.set_last (x' :: l) v).
  rewrite last_cons. apply IH. discriminate.
Qed.

(** ** The interpolants of a constructed object *)

Lemma interp_val_cases x0 y0 l lo hi q :
  let f := Np.mk_interp ((x0, y0) :: l) false lo hi in
  (q < x0 /\ interp_val f q = lo) \/
  (x0 <= q /\ fst (last l (x0, y0)) < q /\ interp_val f q = hi) \/
  (x0 <= q /\ q <= fst (last l (x0, y0)) /\ interp_val f q = Np.np_interp x0 y0 l q).
Proof.
  intro f. unfold interp_val, f.
  destruct (Qlt_le_dec q x0) as [A|A].
  - left. split; [exact A|]. now rewrite interp_at_below.
  - right. destruct (Qlt_le_dec (fst (last l (x0, y0))) q) as [B|B].
    + left. repeat split; try assumption. now rewrite interp_at_above.
    + right. repeat split; try assumption. now rewrite interp_at_inside.
Qed.

(** An interpolant with non-decreasing knots, filled below by at most the
    first ordinate and above by at least the last, is non-decreasing. *)
Lemma interp_val_monotone x0 y0 l lo hi :
  kchain Qle Qle (x0, y0) l -> lo <= y0 -> snd (last l (x0, y0)) <= hi ->
  forall a b, a <= b ->
    interp_val (Np.mk_interp ((x0, y0) :: l) false lo hi) a
    <= interp_val (Np.mk_interp ((x0, y0) :: l) false lo hi) b.
Proof.
  intros K L H a b AB.
  assert (K' : kchain any_order Qle (x0, y0) l)
    by (revert K; apply kchain_weaken; unfold any_order; auto).
  assert (LH : y0 <= snd (last l (x0, y0)))
    by (destruct (np_interp_range l x0 y0 x0 (Qle_refl _) K'); lra).
  destruct (interp_val_cases x0 y0 l lo hi a) as [[Ca ->]|[(Ca & Da & ->)|(Ca & Da & ->)]];
  destruct (interp_val_cases x0 y0 l lo hi b) as [[Cb ->]|[(Cb & Db & ->)|(Cb & Db & ->)]];
    try lra.
  - destruct (np_interp_range l x0 y0 b Cb K'). lra.
  - destruct (np_interp_range l x0 y0 a Ca K'). lra.
  - apply np_interp_monotone; assumption.
Qed.

Lemma resampled_nonnegative xx0 yy0 q :
  Forall (fun y => 0 <= y) yy0 -> 0 <= interp_val (master_of xx0 yy0) q.
Proof.
  intro F. unfold master_of.
  assert (FK : Forall (fun k : Q * Q => 0 <= snd k) (Np.sort_knots (combine xx0 yy0)))
    by (apply sort_knots_Forall, combine_Forall_snd; exact F).
  destruct (Np.sort_knots (combine xx0 yy0)) as [|[x0 y0] l].
  - unfold interp_val, Np.interp_at. simpl. apply Qle_refl.
  - destruct (interp_val_cases x0 y0 l 0 0 q) as [[C ->]|[(C & D & ->)|(C & D & ->)]];
      try apply Qle_refl.
    apply np_interp_lower; assumption.
Qed.

Lemma set_last_shape l :
  chain Qle 0 l -> last l 0 <= 1 ->
  exists c0 cs, Np.set_last (0 :: l) 1 = c0 :: cs /\ 0 <= c0 /\
                chain Qle c0 cs /\ last cs c0 = 1.
Proof.
  intros C H. destruct l as [|c1 l].
  - exists 1, []. repeat split. lra.
  - exists 0, (Np.set_last (c1 :: l) 1). split; [reflexivity|].
    split; [apply Qle_refl|]. split.
    + apply set_last_chain; [discriminate|exact C|exact H].
    + apply last_set_last. discriminate.
Qed.

Lemma chain_le_last l : forall x0, chain Qle x0 l -> x0 <= last l x0.
Proof.
  induction l as [|x1 l IH]; intros x0 C; [apply Qle_refl|].
  destruct C as [X C]. rewrite last_cons.
  eapply Qle_trans; [exact X|apply IH; exact C].
Qed.

Lemma scaled_nonnegative T y :
  0 < T -> Forall (fun v => 0 <= v) y -> Forall (fun v => 0 <= v) (map (fun v => v / T) y).
Proof.
  intros PT F. induction F as [|v y Hv F IH]; simpl; constructor; [|exact IH].
  apply Qle_shift_div_l; [exact PT|]. lra.
Qed.

(** The normalised cumulative sequence of a non-negative density of positive
    integral on a non-decreasing grid: non-decreasing from a non-negative
    start to exactly 1. *)
Lemma cumulative_shape g0 gs y0 ys :
  chain Qle g0 gs -> Forall (fun v => 0 <= v) (y0 :: ys) ->
  0 < Np.trapz (y0 :: ys) (g0 :: gs) ->
  exists c0 cs,
    Np.set_last (Np.cumtrapz (map (fun v => v / Np.trapz (y0 :: ys) (g0 :: gs)) (y0 :: ys))
                   (g0 :: gs)) 1 = c0 :: cs /\
    0 <= c0 /\ chain Qle c0 cs /\ last cs c0 = 1.
Proof.
  intros C F PT.
  set (T := Np.trapz (y0 :: ys) (g0 :: gs)) in *.
  pose proof (scaled_nonnegative T _ PT F) as F'.
  assert (N1 : Np.trapz (map (fun v => v / T) (y0 :: ys)) (g0 :: gs) == 1)
    by (apply trapz_normalised; fold T; lra).
  rewrite trapz_last in N1.
  cbn [map Np.cumtrapz] in *. rewrite last_cons in N1.
  inversion F' as [|? ? F0 F1]; subst.
  apply set_last_shape.
  - apply cumtrapz_from_chain; assumption.
  - lra.
Qed.

Lemma sorted_knots (Ry : Q -> Q -> Prop) x0 xs y0 ys :
  chain Qle x0 xs -> chain Ry y0 ys ->
  Np.sort_knots (combine (x0 :: xs) (y0 :: ys)) = (x0, y0) :: combine xs ys /\
  kchain Qle Ry (x0, y0) (combine xs ys).
Proof.
  intros CX CY.
  pose proof (kchain_combine Qle Ry xs x0 y0 ys CX CY) as K.
  split; [|exact K]. apply (sort_knots_sorted Ry). exact K.
Qed.

Lemma total_mass_assemble lo hi tmin tmax master grid y :
  total_mass (assemble lo hi tmin tmax master grid y) = Np.trapz y grid.
Proof.
  unfold total_mass, assemble. cbn [YYnotNorm]. symmetry. apply trapz_last.
Qed.

(** What [__init__] returns, with its grid and resampled density named. *)
Lemma init_shape xx0 yy0 mn mx s :
  __init__ xx0 yy0 mn mx = Ok s ->
  exists lo hi g0 gs ys,
    Np.py_min xx0 = Ok lo /\ Np.py_max xx0 = Ok hi /\
    resolved_minimum lo mn <= resolved_maximum hi mx /\
    Np.linspace (resolved_minimum lo mn) (resolved_maximum hi mx) (length xx0) = g0 :: gs /\
    g0 == resolved_minimum lo mn /\
    chain Qle g0 gs /\
    length gs = length ys /\
    (Forall (fun v => 0 <= v) yy0 ->
     Forall (fun v => 0 <= v) (interp_val (master_of xx0 yy0) g0 :: ys)) /\
    s = assemble lo hi (resolved_minimum lo mn) (resolved_maximum hi mx)
          (master_of xx0 yy0) (g0 :: gs) (interp_val (master_of xx0 yy0) g0 :: ys).
Proof.
  intro H. apply init_inv in H. destruct H as (lo & hi & Hlo & Hhi & L & B & ->).
  assert (N : length xx0 <> O).
  { apply py_min_nonempty in Hlo. destruct xx0; [contradiction|discriminate]. }
  destruct (linspace_head (resolved_minimum lo mn) (resolved_maximum hi mx) _ N)
    as (g0 & gs & E & E0).
  exists lo, hi, g0, gs, (map (interp_val (master_of xx0 yy0)) gs).
  repeat split; try assumption.
  - eapply linspace_nondecreasing; eassumption.
  - now rewrite length_map.
  - intro F. constructor; [apply resampled_nonnegative; exact F|].
    apply Forall_forall. intros v Hv. apply in_map_iff in Hv.
    destruct Hv as (q & <- & _). apply resampled_nonnegative; exact F.
  - unfold built. rewrite E. reflexivity.
Qed.

(** ** Interpolants that raise *)

Lemma interp_at_raises f q e : Np.interp_at f q = Raise e -> e = ValueError.
Proof.
  unfold Np.interp_at. destruct (Np.knots f) as [|[x0 y0] l]; [congruence|].
  destruct (Qltb q x0); [destruct (Np.bounds_error f); congruence|].
  destruct (Qltb _ q); [destruct (Np.bounds_error f); congruence|congruence].
Qed.

Lemma rmap_raises {A B : Type} (f : A -> result B) (E : exn) (l : list A) :
  (forall a e, f a = Raise e -> e = E) ->
  Exists (fun a => exists e, f a = Raise e) l ->
  rmap f l = Raise E.
Proof.
  intros U X. induction X as [a l (e & He)|a l X IH]; simpl.
  - rewrite He. simpl. now rewrite (U a e He).
  - destruct (f a) as [b|e] eqn:Fa; simpl.
    + now rewrite IH.
    + now rewrite (U a e Fa).
Qed.

(** ** Rescaling between the frozen bounds *)

Lemma np_interp_first Ry l x0 y0 q :
  kchain Qlt Ry (x0, y0) l -> x0 == q -> Np.np_interp x0 y0 l q = y0.
Proof.
  intros K E. destruct l as [|[x1 y1] l]; [reflexivity|].
  destruct K as (X & _). simpl in X. apply np_interp_knot; [lra|exact E].
Qed.

Lemma kchain_in_le_last Ry l : forall k0 k,
  kchain Qle Ry k0 l -> In k (k0 :: l) -> fst k <= fst (last l k0).
Proof.
  induction l as [|k1 l IH]; intros k0 k K H.
  - destruct H as [<-|[]]. apply Qle_refl.
  - rewrite last_cons. pose proof K as (X & _ & K').
    destruct H as [<-|H].
    + eapply Qle_trans; [exact X|]. apply (kchain_le_last Ry); exact K'.
    + apply IH; assumption.
Qed.

Lemma in_last {A : Type} (l : list A) (d : A) : In (last l d) (d :: l).
Proof.
  revert d. induction l as [|a l IH]; intro d; [left; reflexivity|].
  rewrite last_cons. right. apply IH.
Qed.

Lemma two_samples xx0 lo hi mn mx :
  Np.py_min xx0 = Ok lo -> Np.py_max xx0 = Ok hi ->
  resolved_minimum lo mn < resolved_maximum hi mx ->
  (2 <= length xx0)%nat.
Proof.
  intros Hlo Hhi B.
  destruct xx0 as [|x [|x' l]]; [discriminate| |simpl; lia].
  simpl in Hlo, Hhi. injection Hlo as <-. injection Hhi as <-.
  pose proof (nanmax_ge x mn). pose proof (nanmin_le x mx).
  unfold resolved_minimum, resolved_maximum, py_float in B. lra.
Qed.

(** ** The scenario of the specification

    [xx = [0, 1, 2, 3, 4]], [yy = [1, 1, 1, 1, 1]], default bounds: the
    density is 1/4 at 2, the cumulative distribution is 1 at 4 and 0 at -1,
    and [rescale(0.5)] is 2. *)
Example scenario_values :
  let s := built xs5 ys5 0 4 None None in
  (exists p, prob s (PFloat 2) = Ok (Arr0 p) /\ p == 1 # 4) /\
  cdf s (PFloat 4) = Ok (Arr0 1) /\
  cdf s (PFloat (-1)) = Ok (Arr0 0) /\
  (exists x, rescale s (PFloat (1 # 2)) = Ok (RFloat x) /\ x == 2).
Proof.
  intro s. split; [|split; [|split]].
  - eexists. split; [vm_compute; reflexivity|reflexivity].
  - vm_compute. reflexivity.
  - vm_compute. reflexivity.
  - eexists. split; [vm_compute; reflexivity|reflexivity].
Qed.

(** * Further properties of the class *)

(** ** Arguments that construction refuses *)

(** X1: Construction raises ValueError on an empty [xx] ([min] of an empty
    sequence) and on sample arrays of different lengths ([interp1d]),
    whatever the bounds. *)
Theorem construction_rejects_bad_samples xx0 yy0 mn mx :
  xx0 = [] \/ length xx0 <> length yy0 ->
  __init__ xx0 yy0 mn mx = Raise ValueError.
Proof.
  intros [->|L]; [reflexivity|].
  unfold __init__.
  destruct xx0 as [|x0 xs]; [reflexivity|].
  cbn [Np.py_min Np.py_max rbind].
  unfold Np.new_interp1d.
  apply Nat.eqb_neq in L. rewrite L. reflexivity.
Qed.

Lemma construction_rejects_bad_samples_example :
  __init__ [0; 1; 2] [1; 1] None None = Raise ValueError.
Proof.
  apply (construction_rejects_bad_samples [0; 1; 2] [1; 1] None None).
  right. simpl. discriminate.
Defined.

(** ** The object right after construction *)

(** X2: A constructed object stores the limits of the raw [xx], the resolved
    bounds as [trans_min], [trans_max], [minimum] and [maximum], and as [xx] a
    non-decreasing grid of the length of the raw [xx] that starts at the
    resolved minimum and, for two samples or more, ends at the resolved
    maximum; the resolved bounds lie between the limits. *)
Theorem constructed_state xx0 yy0 mn mx s :
  __init__ xx0 yy0 mn mx = Ok s ->
  exists lo hi g y,
    Np.py_min xx0 = Ok lo /\ Np.py_max xx0 = Ok hi /\
    min_limit s = lo /\ max_limit s = hi /\
    trans_min s = resolved_minimum lo mn /\
    trans_max s = resolved_maximum hi mx /\
    _minimum s = Some (PFloat (trans_min s)) /\
    _maximum s = Some (PFloat (trans_max s)) /\
    lo <= trans_min s /\ trans_min s <= trans_max s /\ trans_max s <= hi /\
    xx s = Arr1 g /\ _yy s = Arr1 y /\
    length g = length xx0 /\ length y = length xx0 /\
    hd 0 g == trans_min s /\
    ((2 <= length xx0)%nat -> last g 0 = trans_max s) /\
    chain Qle (hd 0 g) (tl g).
Proof.
  intro H. apply init_shape in H.
  destruct H as (lo & hi & g0 & gs & ys & Hlo & Hhi & B & E & E0 & C & L & _ & ->).
  exists lo, hi, (g0 :: gs). eexists.
  unfold assemble.
  cbn [min_limit max_limit trans_min trans_max _minimum _maximum xx _yy hd tl].
  assert (Lg : length (g0 :: gs) = length xx0)
    by (rewrite <- E; apply linspace_length).
  repeat split; try assumption; try reflexivity.
  - apply nanmax_ge.
  - apply nanmin_le.
  - rewrite length_map. simpl in *. congruence.
  - intro N2. rewrite <- E. apply linspace_last. exact N2.
Qed.

Lemma constructed_state_scenario :
  exists g, xx (built xs5 ys5 0 4 None None) = Arr1 g /\ length g = 5%nat.
Proof.
  destruct (constructed_state xs5 ys5 None None (built xs5 ys5 0 4 None None)
              scenario_constructed)
    as (lo & hi & g & y & H).
  exists g. split; apply H.
Defined.

(** ** Float and array bounds *)

(** X3: A float is accepted as [minimum] exactly when it is not below
    [min_limit], even above [max_limit] or the current maximum; an array
    exactly when no entry is below [min_limit].  A refused value raises
    ValueError and leaves the object as it was; an accepted one is what the
    getter returns next, and nothing else changes: no grid is rebuilt. *)
Theorem minimum_setter_accepts s v :
  isinstance_float v = true \/ (exists a, v = PArray a) ->
  (Exists (fun q => q < min_limit s) (entries v) ->
   minimum_setter v s = (s, Raise ValueError)) /\
  (Forall (fun q => min_limit s <= q) (entries v) ->
   minimum_setter v s = (set__minimum v s, Ok tt) /\
   minimum (set__minimum v s) = (set__minimum v s, Ok v) /\
   xx (set__minimum v s) = xx s /\ _yy (set__minimum v s) = _yy s /\
   _maximum (set__minimum v s) = _maximum s /\
   frozen_part (set__minimum v s) = frozen_part s).
Proof.
  intro K.
  assert (D : minimum_setter v s =
              if existsb (fun q => Qltb q (min_limit s)) (entries v)
              then (s, Raise ValueError) else (set__minimum v s, Ok tt)).
  { destruct K as [K|(a & ->)].
    - destruct v as [q| |]; try discriminate.
      rewrite minimum_setter_float. cbn [entries existsb]. now rewrite orb_false_r.
    - apply minimum_setter_array. }
  split.
  - intro X. rewrite D.
    assert (T : existsb (fun q => Qltb q (min_limit s)) (entries v) = true).
    { apply existsb_exists. apply Exists_exists in X. destruct X as (q & I & L).
      exists q. split; [exact I|]. apply Qltb_lt. exact L. }
    now rewrite T.
  - intro F. rewrite D.
    assert (T : existsb (fun q => Qltb q (min_limit s)) (entries v) = false).
    { destruct (existsb _ (entries v)) eqn:X; [|reflexivity].
      apply existsb_exists in X. destruct X as (q & I & L).
      apply Qltb_lt in L. rewrite Forall_forall in F. specialize (F q I). lra. }
    rewrite T. repeat split.
Qed.

Lemma minimum_setter_accepts_scenario :
  minimum_setter (PFloat 10) (built xs5 ys5 0 4 None None)
  = (set__minimum (PFloat 10) (built xs5 ys5 0 4 None None), Ok tt).
Proof.
  refine (proj1 (proj2 (minimum_setter_accepts (built xs5 ys5 0 4 None None)
                          (PFloat 10) _) _)).
  - left. reflexivity.
  - constructor; [|constructor]. vm_compute. discriminate.
Defined.

(** X4: The same for [maximum] and [max_limit]: a float is accepted exactly when
    it is not above [max_limit], even below [min_limit] or the current
    minimum; an array exactly when no entry is above [max_limit]. *)
Theorem maximum_setter_accepts s v :
  isinstance_float v = true \/ (exists a, v = PArray a) ->
  (Exists (fun q => max_limit s < q) (entries v) ->
   maximum_setter v s = (s, Raise ValueError)) /\
  (Forall (fun q => q <= max_limit s) (entries v) ->
   maximum_setter v s = (set__maximum v s, Ok tt) /\
   maximum (set__maximum v s) = (set__maximum v s, Ok v) /\
   xx (set__maximum v s) = xx s /\ _yy (set__maximum v s) = _yy s /\
   _minimum (set__maximum v s) = _minimum s /\
   frozen_part (set__maximum v s) = frozen_part s).
Proof.
  intro K.
  assert (D : maximum_setter v s =
              if existsb (fun q => Qltb (max_limit s) q) (entries v)
              then (s, Raise ValueError) else (set__maximum v s, Ok tt)).
  { destruct K as [K|(a & ->)].
    - destruct v as [q| |]; try discriminate.
      rewrite maximum_setter_float. cbn [entries existsb]. now rewrite orb_false_r.
    - apply maximum_setter_array. }
  split.
  - intro X. rewrite D.
    assert (T : existsb (fun q => Qltb (max_limit s) q) (entries v) = true).
    { apply existsb_exists. apply Exists_exists in X. destruct X as (q & I & L).
      exists q. split; [exact I|]. apply Qltb_lt. exact L. }
    now rewrite T.
  - intro F. rewrite D.
    assert (T : existsb (fun q => Qltb (max_limit s) q) (entries v) = false).
    { destruct (existsb _ (entries v)) eqn:X; [|reflexivity].
      apply existsb_exists in X. destruct X as (q & I & L).
      apply Qltb_lt in L. rewrite Forall_forall in F. specialize (F q I). lra. }
    rewrite T. repeat split.
Qed.

Lemma maximum_setter_accepts_scenario :
  maximum_setter (PArray [5; 1]) (built xs5 ys5 0 4 None None)
  = (built xs5 ys5 0 4 None None, Raise ValueError).
Proof.
  refine (proj1 (maximum_setter_accepts (built xs5 ys5 0 4 None None)
                   (PArray [5; 1]) _) _).
  - right. exists [5; 1]. reflexivity.
  - constructor. vm_compute. reflexivity.
Defined.

(** ** Replacing [yy] *)

(** X5: With float bounds and a new [yy] of the length of the grid, the [yy]
    setter returns; the master interpolant is rebuilt from the current grid,
    not from the raw [xx]; the grid is laid out again between the current
    bounds with the same length; [yy] becomes the new samples resampled on
    the new grid and is not normalised again; the interpolants of the first
    build and the bounds stay as they were. *)
Theorem yy_setter_regrids yy s x a b :
  init_once s = true ->
  xx s = Arr1 x -> x <> [] -> length x = length yy ->
  _minimum s = Some (PFloat a) -> _maximum s = Some (PFloat b) ->
  exists s',
    yy_setter yy s = (s', Ok tt) /\
    all_interpolated s' = Np.mk_interp (Np.sort_knots (combine x yy)) false 0 0 /\
    xx s' = Arr1 (Np.linspace a b (length x)) /\
    _yy s' = Arr1 (map (interp_val (all_interpolated s')) (Np.linspace a b (length x))) /\
    frozen_part s' = frozen_part s /\ bounds_part s' = bounds_part s /\
    YY s' = YY s /\ YYnotNorm s' = YYnotNorm s.
Proof.
  intros G X N L A B.
  eexists. split.
  - unfold yy_setter, bind at 1 2 3 4, assign at 1 2, get at 1, lift at 1.
    cbn [xx set__yy]. rewrite X.
    rewrite (new_interp1d_ok _ _ _ _ _ L N).
    unfold _update_instance, minimum, maximum, bind, get, lift, assign.
    cbn [_minimum _maximum set_all_interpolated set__yy xx attr all_interpolated].
    rewrite A, B, X.
    cbn [attr Np.len Np.np_linspace Np.as_array Np.as_scalar Np.call rbind].
    rewrite (rmap_total _ (interp_val (Np.mk_interp (Np.sort_knots (combine x yy)) false 0 0)))
      by (intros; apply mk_interp_total; assumption).
    cbn [rbind].
    rewrite initialize_attributes_guarded by exact G.
    reflexivity.
  - repeat split.
Qed.

Lemma yy_setter_regrids_scenario :
  exists s',
    yy_setter [2; 0; 2; 0; 2] (built xs5 ys5 0 4 None None) = (s', Ok tt) /\
    xx s' = Arr1 (Np.linspace 0 4 5).
Proof.
  destruct (yy_setter_regrids [2; 0; 2; 0; 2] (built xs5 ys5 0 4 None None)
              (Np.linspace 0 4 5) 0 4)
    as (s' & E & _ & E' & _); try reflexivity.
  - discriminate.
  - exists s'. split; [exact E|exact E'].
Defined.

(** X6: A new [yy] whose length differs from the length of the grid makes the
    setter raise ValueError; by then [yy] already holds the new, unsampled
    values, and nothing else has changed. *)
Theorem yy_setter_length_mismatch yy s x :
  xx s = Arr1 x -> length x <> length yy ->
  yy_setter yy s = (set__yy (Arr1 yy) s, Raise ValueError).
Proof.
  intros X L.
  unfold yy_setter, bind at 1 2 3, assign at 1, get at 1, lift at 1.
  cbn [xx set__yy]. rewrite X. unfold Np.new_interp1d.
  apply Nat.eqb_neq in L. rewrite L. reflexivity.
Qed.

Lemma yy_setter_length_mismatch_scenario :
  yy_setter [1; 2] (built xs5 ys5 0 4 None None)
  = (set__yy (Arr1 [1; 2]) (built xs5 ys5 0 4 None None), Raise ValueError).
Proof.
  apply (yy_setter_length_mismatch [1; 2] (built xs5 ys5 0 4 None None)
           (Np.linspace 0 4 5)).
  - reflexivity.
  - simpl. discriminate.
Defined.

Lemma linspace2_len a b n g : Np.linspace2 a b n = Ok g -> Np.len g = Ok n.
Proof.
  unfold Np.linspace2. destruct (Np.broadcast a b) as [ps|e]; [|discriminate].
  cbn [rbind]. intro H. injection H as <-.
  cbn [Np.len]. now rewrite length_map, length_seq.
Qed.

Lemma np_linspace_len lo hi n g : Np.np_linspace lo hi n = Ok g -> Np.len g = Ok n.
Proof.
  unfold Np.np_linspace.
  destruct (Np.as_array lo), (Np.as_array hi); try apply linspace2_len.
  intro H. injection H as <-. cbn [Np.len]. now rewrite linspace_length.
Qed.

Lemma yy_setter_keeps_len yy s n :
  guarded s -> Np.len (xx s) = Ok n ->
  Np.len (xx (fst (yy_setter yy s))) = Ok n.
Proof.
  intros G Ln.
  unfold yy_setter, bind at 1 2 3 4, assign at 1 2, get at 1, lift at 1.
  cbn [xx set__yy].
  destruct (match xx s with
            | Arr1 x => Np.new_interp1d x yy false 0 0
            | _ => Raise ValueError
            end) as [f|e]; [|exact Ln].
  unfold _update_instance, minimum, maximum, bind, get, lift, assign.
  cbn [_minimum _maximum set_all_interpolated set__yy xx all_interpolated].
  destruct (attr (_minimum s)) as [lo|e]; [|exact Ln].
  destruct (attr (_maximum s)) as [hi|e]; [|exact Ln].
  rewrite Ln.
  destruct (Np.np_linspace lo hi n) as [g|e] eqn:Eg; [|exact Ln].
  apply np_linspace_len in Eg.
  destruct (Np.call f g) as [y|e]; [|exact Eg].
  rewrite initialize_attributes_guarded by exact G.
  exact Eg.
Qed.

(** X7: The number of grid points never changes: after any sequence of bound and
    [yy] mutations, returning or raising, [len(xx)] is the length of the raw
    [xx]. *)
Theorem grid_length_constant xx0 yy0 mn mx s0 ms :
  __init__ xx0 yy0 mn mx = Ok s0 ->
  Np.len (xx (run ms s0)) = Ok (length xx0).
Proof.
  intro H. pose proof (init_sets_guard _ _ _ _ _ H) as G.
  assert (L0 : Np.len (xx s0) = Ok (length xx0)).
  { apply init_inv in H. destruct H as (lo & hi & _ & _ & _ & _ & ->).
    unfold built, assemble. cbn [xx Np.len]. now rewrite linspace_length. }
  clear H. revert s0 G L0.
  induction ms as [|m ms IH]; intros s G L0; [exact L0|].
  simpl. apply IH.
  - apply (mutation_keeps_frozen m s G).
  - destruct m as [v|v|yy]; simpl apply_mutation.
    + destruct (minimum_setter_cases v s) as [E|[E|[E _]]]; rewrite E; exact L0.
    + destruct (maximum_setter_cases v s) as [E|[E|[E _]]]; rewrite E; exact L0.
    + apply yy_setter_keeps_len; assumption.
Qed.

Lemma grid_length_constant_scenario :
  Np.len (xx (run [SetMinimum (PArray [1; 2]); SetYY [2; 0; 2; 0; 2]; SetYY [1; 1; 1; 1; 1]]
                  (built xs5 ys5 0 4 None None))) = Ok 5%nat.
Proof.
  apply (grid_length_constant xs5 ys5 None None (built xs5 ys5 0 4 None None)).
  exact scenario_constructed.
Defined.



(** ** Equality of objects *)

Lemma Qeq_bool_comm x y : Qeq_bool x y = Qeq_bool y x.
Proof.
  destruct (Qeq_bool x y) eqn:A, (Qeq_bool y x) eqn:B; try reflexivity.
  - apply Qeq_bool_sym in A. congruence.
  - apply Qeq_bool_sym in B. congruence.
Qed.

Lemma list_equal_comm a : forall b, Np.list_equal a b = Np.list_equal b a.
Proof.
  induction a as [|x a IH]; intros [|y b]; simpl; try reflexivity.
  now rewrite Qeq_bool_comm, IH.
Qed.

Lemma list_equal_trans a : forall b c,
  Np.list_equal a b = true -> Np.list_equal b c = true -> Np.list_equal a c = true.
Proof.
  induction a as [|x a IH]; intros [|y b] [|z c]; simpl; try discriminate; auto.
  rewrite !andb_true_iff. intros [A1 A2] [B1 B2]. split.
  - eapply Qeq_bool_trans; eassumption.
  - eapply IH; eassumption.
Qed.

Lemma rows_equal_comm a : forall b, Np.rows_equal a b = Np.rows_equal b a.
Proof.
  induction a as [|x a IH]; intros [|y b]; simpl; try reflexivity.
  now rewrite list_equal_comm, IH.
Qed.

Lemma rows_equal_trans a : forall b c,
  Np.rows_equal a b = true -> Np.rows_equal b c = true -> Np.rows_equal a c = true.
Proof.
  induction a as [|x a IH]; intros [|y b] [|z c]; simpl; try discriminate; auto.
  rewrite !andb_true_iff. intros [A1 A2] [B1 B2]. split.
  - eapply list_equal_trans; eassumption.
  - eapply IH; eassumption.
Qed.

Lemma rows_equal_refl a : Np.rows_equal a a = true.
Proof.
  induction a as [|x a IH]; simpl; [reflexivity|].
  now rewrite list_equal_refl, IH.
Qed.

Lemma array_equal_comm a b : Np.array_equal a b = Np.array_equal b a.
Proof.
  destruct a, b; simpl; try reflexivity;
    auto using Qeq_bool_comm, list_equal_comm, rows_equal_comm.
Qed.

Lemma array_equal_trans a b c :
  Np.array_equal a b = true -> Np.array_equal b c = true -> Np.array_equal a c = true.
Proof.
  destruct a, b, c; simpl; try discriminate;
    eauto using Qeq_bool_trans, list_equal_trans, rows_equal_trans.
Qed.

Lemma array_equal_refl a : Np.array_equal a a = true.
Proof.
  destruct a; simpl;
    [apply Qeq_bool_iff; reflexivity|apply list_equal_refl|apply rows_equal_refl].
Qed.

Lemma eq_as_conjunction a b :
  __eq__ a (ATransInterped b) =
  Np.array_equal (xx a) (xx b) && Np.array_equal (_yy a) (_yy b).
Proof.
  unfold __eq__. destruct (_ && _); reflexivity.
Qed.

(** X9: [__eq__] never holds with an object of another class; between
    [TransInterped] objects it gives the same answer in both directions and
    is transitive. *)
Theorem eq_is_symmetric_and_transitive a b c :
  __eq__ a AnotherObject = false /\
  __eq__ a (ATransInterped b) = __eq__ b (ATransInterped a) /\
  (__eq__ a (ATransInterped b) = true -> __eq__ b (ATransInterped c) = true ->
   __eq__ a (ATransInterped c) = true).
Proof.
  split; [reflexivity|]. rewrite !eq_as_conjunction. split.
  - now rewrite (array_equal_comm (xx a)), (array_equal_comm (_yy a)).
  - rewrite !andb_true_iff. intros [A1 A2] [B1 B2]. split.
    + eapply array_equal_trans; eassumption.
    + eapply array_equal_trans; eassumption.
Qed.

Lemma eq_is_symmetric_and_transitive_scenario :
  __eq__ (built xs5 ys5 0 4 None None)
         (ATransInterped (set__maximum (PFloat 2) (built xs5 ys5 0 4 (Some (-1)) None)))
  = true.
Proof.
  refine (proj2 (proj2
    (eq_is_symmetric_and_transitive (built xs5 ys5 0 4 None None)
       (built xs5 ys5 0 4 (Some (-1)) None)
       (set__maximum (PFloat 2) (built xs5 ys5 0 4 (Some (-1)) None)))) _ _);
    vm_compute; reflexivity.
Defined.

(** ** The normalised density *)

(** X10: After construction the stored [yy] integrates to 1 over the stored [xx]
    (trapezoidal rule), provided the resampled density did not integrate to
    0. *)
Theorem stored_density_integrates_to_one xx0 yy0 mn mx s :
  __init__ xx0 yy0 mn mx = Ok s ->
  ~ total_mass s == 0 ->
  exists g y, xx s = Arr1 g /\ _yy s = Arr1 y /\ Np.trapz y g == 1.
Proof.
  intros H NT. apply init_inv in H. destruct H as (lo & hi & _ & _ & _ & _ & ->).
  unfold built in *. rewrite total_mass_assemble in NT.
  eexists; eexists. unfold assemble. cbn [xx _yy].
  split; [reflexivity|]. split; [reflexivity|].
  apply trapz_normalised. exact NT.
Qed.

Lemma stored_density_integrates_to_one_scenario :
  exists g y, xx (built xs5 ys5 0 4 None None) = Arr1 g /\
              _yy (built xs5 ys5 0 4 None None) = Arr1 y /\ Np.trapz y g == 1.
Proof.
  apply (stored_density_integrates_to_one xs5 ys5 None None).
  - exact scenario_constructed.
  - vm_compute. discriminate.
Defined.

Lemma trapz_single y0 ys g0 : Np.trapz (y0 :: ys) [g0] = 0.
Proof. reflexivity. Qed.

(** The normalised cumulative sequence when the integral is positive: it
    starts at 0, has a second entry, and ends at 1. *)
Lemma cumulative_shape_from_zero g0 gs y0 ys :
  chain Qle g0 gs -> length gs = length ys ->
  Forall (fun v => 0 <= v) (y0 :: ys) ->
  0 < Np.trapz (y0 :: ys) (g0 :: gs) ->
  exists cs,
    Np.set_last (Np.cumtrapz (map (fun v => v / Np.trapz (y0 :: ys) (g0 :: gs)) (y0 :: ys))
                   (g0 :: gs)) 1 = 0 :: cs /\
    cs <> [] /\ chain Qle 0 cs /\ last cs 0 = 1 /\ length cs = length gs.
Proof.
  intros C L F PT.
  destruct gs as [|g1 gs]; [rewrite trapz_single in PT; lra|].
  destruct ys as [|y1 ys]; [discriminate|].
  set (T := Np.trapz (y0 :: y1 :: ys) (g0 :: g1 :: gs)) in *.
  pose proof (scaled_nonnegative T _ PT F) as F'.
  assert (N1 : Np.trapz (map (fun v => v / T) (y0 :: y1 :: ys)) (g0 :: g1 :: gs) == 1)
    by (apply trapz_normalised; fold T; lra).
  rewrite trapz_last in N1.
  cbn [map Np.cumtrapz] in *. rewrite last_cons in N1.
  inversion F' as [|? ? F0 F1]; subst.
  pose proof (cumtrapz_from_chain (g1 :: gs) 0 g0 (y0 / T) _ C F0 F1) as CC.
  set (cf := Np.cumtrapz_from 0 g0 (y0 / T) (g1 :: gs)
               (y1 / T :: map (fun v => v / T) ys)) in *.
  assert (Lcf : length cf = length (g1 :: gs)).
  { unfold cf. apply cumtrapz_from_length. simpl in *. now rewrite length_map. }
  assert (Ncf : cf <> []) by (intro E; rewrite E in Lcf; discriminate).
  exists (Np.set_last cf 1).
  destruct cf as [|c1 cf'] eqn:Ecf; [contradiction|].
  split; [reflexivity|]. split.
  { intro E. apply (f_equal (@length Q)) in E. rewrite set_last_length in E.
    discriminate. }
  split; [apply set_last_chain; [discriminate|exact CC|lra]|].
  split; [apply last_set_last; discriminate|].
  rewrite set_last_length. exact Lcf.
Qed.

Lemma linspace_flat a b n h t :
  a == b -> Np.linspace a b n = h :: t -> chain Qeq h t.
Proof.
  intros AB E.
  destruct n as [|[|d]]; [discriminate| |].
  - injection E as <- <-. exact I.
  - rewrite linspace_unfold in E. injection E as <- <-.
    pose proof (inject_Z_pos d) as P.
    assert (S0 : (b - a) / inject_Z (Z.of_nat (S d)) == 0).
    { assert (Z0 : b - a == 0) by lra. rewrite Z0. field. lra. }
    apply (chain_map_seq Qeq
             (fun i => inject_Z (Z.of_nat i) * ((b - a) / inject_Z (Z.of_nat (S d))) + a)
             b d 0%nat).
    + intros j _. rewrite !S0. ring.
    + cbn [Nat.add]. rewrite S0. lra.
Qed.

Lemma trapz_from_flat xs : forall acc x0 y0 ys,
  chain Qeq x0 xs -> Np.trapz_from acc x0 y0 xs ys == acc.
Proof.
  induction xs as [|x1 xs IH]; intros acc x0 y0 ys C; [reflexivity|].
  destruct ys as [|y1 ys]; [reflexivity|].
  destruct C as [X C]. cbn [Np.trapz_from]. rewrite (IH _ x1 y1 ys C).
  assert (Z0 : x1 - x0 == 0) by lra. rewrite Z0. field.
Qed.

(** What [__init__] returns for a non-negative density of positive
    integral: the grid is increasing from the resolved minimum to the
    resolved maximum, and the normalised cumulative sequence runs from 0 to
    1. *)
Lemma init_shape_positive xx0 yy0 mn mx s :
  __init__ xx0 yy0 mn mx = Ok s ->
  Forall (fun y => 0 <= y) yy0 ->
  0 < total_mass s ->
  exists lo hi g0 gs y0 ys cs,
    s = assemble lo hi (resolved_minimum lo mn) (resolved_maximum hi mx)
          (master_of xx0 yy0) (g0 :: gs) (y0 :: ys) /\
    g0 == resolved_minimum lo mn /\ last gs g0 = resolved_maximum hi mx /\
    resolved_minimum lo mn < resolved_maximum hi mx /\
    chain Qlt g0 gs /\ length gs = length ys /\ length cs = length gs /\
    Forall (fun v => 0 <= v) (y0 :: ys) /\
    0 < Np.trapz (y0 :: ys) (g0 :: gs) /\
    Np.set_last (Np.cumtrapz (map (fun v => v / Np.trapz (y0 :: ys) (g0 :: gs)) (y0 :: ys))
                   (g0 :: gs)) 1 = 0 :: cs /\
    cs <> [] /\ chain Qle 0 cs /\ last cs 0 = 1.
Proof.
  intros H F PT. apply init_shape in H.
  destruct H as (lo & hi & g0 & gs & ys & Hlo & Hhi & B & E & E0 & C & L & FY & ->).
  specialize (FY F). rewrite total_mass_assemble in PT.
  destruct (cumulative_shape_from_zero g0 gs _ ys C L FY PT)
    as (cs & Ec & Ncs & CC & E1 & Lc).
  assert (S : resolved_minimum lo mn < resolved_maximum hi mx).
  { destruct (Qlt_le_dec (resolved_minimum lo mn) (resolved_maximum hi mx)) as [S|S];
      [exact S|exfalso].
    assert (Efl : resolved_minimum lo mn == resolved_maximum hi mx) by lra.
    pose proof (linspace_flat _ _ _ _ _ Efl E) as Cf.
    unfold Np.trapz in PT. rewrite (trapz_from_flat gs 0 g0 _ ys Cf) in PT. lra. }
  pose proof (two_samples _ _ _ _ _ Hlo Hhi S) as N2.
  pose proof (linspace_last (resolved_minimum lo mn) (resolved_maximum hi mx) _ 0 N2) as EL.
  rewrite E, last_cons in EL.
  exists lo, hi, g0, gs, (interp_val (master_of xx0 yy0) g0), ys, cs.
  repeat split; try assumption.
  eapply linspace_increasing; eassumption.
Qed.

(** X11: For a non-negative density of positive integral, in exact
    arithmetic, [prob] is never negative and [cdf] stays between 0 and 1, on
    every float (in binary64 [cdf] can pass 1 by rounding); [cdf] is 0 at the
    first grid point. *)
Theorem prob_and_cdf_ranges xx0 yy0 mn mx s :
  __init__ xx0 yy0 mn mx = Ok s ->
  Forall (fun y => 0 <= y) yy0 ->
  0 < total_mass s ->
  (forall x, exists p, prob s (PFloat x) = Ok (Arr0 p) /\ 0 <= p) /\
  (forall x, exists c, cdf s (PFloat x) = Ok (Arr0 c) /\ 0 <= c /\ c <= 1) /\
  exists g, xx s = Arr1 g /\ cdf s (PFloat (hd 0 g)) = Ok (Arr0 0).
Proof.
  intros H F PT.
  destruct (init_shape_positive _ _ _ _ _ H F PT)
    as (lo & hi & g0 & gs & y0 & ys & cs & -> & E0 & EL & S & CG & L & Lc & FY & PT'
        & E & Ncs & CC & E1).
  clear H PT.
  pose proof (chain_weaken Qlt Qle Qlt_le_weak _ _ CG) as C.
  set (T := Np.trapz (y0 :: ys) (g0 :: gs)) in *.
  pose proof (scaled_nonnegative T _ PT' FY) as F'. cbn [map] in F'.
  destruct (sorted_knots Qle g0 gs 0 cs C CC) as [Scd Kcd].
  destruct (sorted_knots any_order g0 gs (y0 / T) (map (fun v => v / T) ys) C
              (chain_any _ _)) as [Spd Kpd].
  pose proof (kchain_combine Qlt any_order gs g0 0 cs CG (chain_any _ _)) as KS.
  assert (LS : snd (last (combine gs cs) (g0, 0)) = 1)
    by (rewrite last_combine_snd; [exact E1|symmetry; exact Lc]).
  unfold prob, cdf, assemble.
  cbn [xx probability_density cumulative_distribution attr rbind Np.asarray Np.call hd].
  fold T. rewrite E, Scd. cbn [map]. rewrite Spd.
  split; [|split].
  - intro x. rewrite interp_at_total; [|reflexivity|discriminate].
    cbn [rbind]. eexists. split; [reflexivity|].
    destruct (interp_val_cases g0 (y0 / T) (combine gs (map (fun v => v / T) ys)) 0 0 x)
      as [[A ->]|[(A & B & ->)|(A & B & ->)]]; try apply Qle_refl.
    apply np_interp_lower; [exact A|].
    constructor; [inversion F'; assumption|].
    apply combine_Forall_snd. inversion F'; assumption.
  - intro x. rewrite interp_at_total; [|reflexivity|discriminate].
    cbn [rbind]. eexists. split; [reflexivity|].
    assert (K' : kchain any_order Qle (g0, 0) (combine gs cs))
      by (revert Kcd; apply kchain_weaken; unfold any_order; auto).
    destruct (interp_val_cases g0 0 (combine gs cs) 0 1 x)
      as [[A ->]|[(A & B & ->)|(A & B & ->)]]; try lra.
    destruct (np_interp_range _ g0 0 x A K') as [R1 R2]. rewrite LS in R2.
    split; assumption.
  - exists (g0 :: gs). split; [reflexivity|].
    rewrite interp_at_inside.
    + cbn [rbind]. rewrite (np_interp_first any_order); [reflexivity|exact KS|reflexivity].
    + apply Qle_refl.
    + rewrite last_combine_fst by (symmetry; exact Lc). apply chain_le_last. exact C.
Qed.

Lemma prob_and_cdf_ranges_scenario :
  exists p, prob (built xs5 ys5 0 4 None None) (PFloat 2) = Ok (Arr0 p) /\ 0 <= p.
Proof.
  refine (proj1 (prob_and_cdf_ranges xs5 ys5 None None (built xs5 ys5 0 4 None None) _ _ _) 2).
  - exact scenario_constructed.
  - unfold ys5. repeat constructor; vm_compute; discriminate.
  - vm_compute. reflexivity.
Defined.

(** ** The quantile function as an inverse *)

Lemma inverse_segment g0 g1 c0 c1 p :
  g0 < g1 -> c0 < p -> p < c1 ->
  g0 < (g1 - g0) / (c1 - c0) * (p - c0) + g0 /\
  (g1 - g0) / (c1 - c0) * (p - c0) + g0 < g1 /\
  (c1 - c0) / (g1 - g0) * ((g1 - g0) / (c1 - c0) * (p - c0) + g0 - g0) + c0 == p.
Proof.
  intros G A B.
  assert (D : 0 < c1 - c0) by lra.
  assert (E1 : (g1 - g0) / (c1 - c0) * (p - c0) + g0 - g0
               == ((g1 - g0) * (p - c0)) / (c1 - c0)) by (field; lra).
  assert (E2 : g1 - ((g1 - g0) / (c1 - c0) * (p - c0) + g0)
               == ((g1 - g0) * (c1 - p)) / (c1 - c0)) by (field; lra).
  assert (P1 : 0 < ((g1 - g0) * (p - c0)) / (c1 - c0)).
  { apply Qlt_shift_div_l; [exact D|]. rewrite Qmult_0_l.
    apply Qmult_lt_0_compat; lra. }
  assert (P2 : 0 < ((g1 - g0) * (c1 - p)) / (c1 - c0)).
  { apply Qlt_shift_div_l; [exact D|]. rewrite Qmult_0_l.
    apply Qmult_lt_0_compat; lra. }
  split; [lra|]. split; [lra|]. field. split; lra.
Qed.

(** Interpolating through knots with increasing abscissas and non-decreasing
    ordinates undoes interpolating through the swapped knots. *)
Lemma np_interp_inverse gs : forall cs g0 c0 p,
  length gs = length cs -> chain Qlt g0 gs -> chain Qle c0 cs ->
  c0 <= p -> p <= last cs c0 ->
  g0 <= Np.np_interp c0 g0 (combine cs gs) p /\
  Np.np_interp c0 g0 (combine cs gs) p <= last gs g0 /\
  Np.np_interp g0 c0 (combine gs cs) (Np.np_interp c0 g0 (combine cs gs) p) == p.
Proof.
  induction gs as [|g1 gs IH]; intros cs g0 c0 p L CG CC Lo Hi.
  - destruct cs; [|discriminate]. simpl in *.
    split; [apply Qle_refl|]. split; [apply Qle_refl|]. lra.
  - destruct cs as [|c1 cs]; [discriminate|].
    destruct CG as [G CG], CC as [Cc CC].
    assert (L' : length gs = length cs) by (simpl in L; congruence).
    rewrite !last_cons in *.
    cbn [combine].
    pose proof (chain_le_last gs g1 (chain_weaken Qlt Qle Qlt_le_weak _ _ CG)) as GL.
    destruct (np_interp_cases c0 g0 c1 g1 (combine cs gs) p)
      as [[A ->]|[(A & E & ->)|(A & E & ->)]].
    + destruct (IH cs g1 c1 p L' CG CC A Hi) as (R1 & R2 & R3).
      split; [lra|]. split; [exact R2|].
      rewrite np_interp_right by exact R1. exact R3.
    + split; [apply Qle_refl|]. split; [lra|].
      rewrite np_interp_knot; [exact E|exact G|reflexivity].
    + assert (S : c0 < p) by (destruct (Qlt_le_dec c0 p); [assumption|exfalso; apply E; lra]).
      destruct (inverse_segment g0 g1 c0 c1 p G S A) as (X1 & X2 & X3).
      split; [lra|]. split; [lra|].
      rewrite np_interp_segment; [exact X3|exact X2|lra].
Qed.

(** ** Where [rescale] lands *)

(** [rescale] on an assembled object with an increasing grid and a
    non-negative resampled density, written out. *)
Lemma rescale_assemble lo hi tmin tmax master g0 gs y0 ys :
  g0 == tmin -> last gs g0 = tmax -> tmin < tmax ->
  chain Qlt g0 gs -> length gs = length ys ->
  Forall (fun v => 0 <= v) (y0 :: ys) ->
  let cf := Np.cumtrapz_from 0 g0 y0 gs ys in
  chain Qle 0 cf /\ length gs = length cf /\
  Np.trapz (y0 :: ys) (g0 :: gs) = last cf 0 /\
  forall u,
    rescale (assemble lo hi tmin tmax master (g0 :: gs) (y0 :: ys)) (PFloat u)
    = Ok (RFloat (interp_val (Np.mk_interp ((0, g0) :: combine cf gs) false 0 0)
                    (0 + (last cf 0 - 0) * u))).
Proof.
  intros E0 EL B CG L FY cf.
  pose proof (chain_weaken Qlt Qle Qlt_le_weak _ _ CG) as C.
  pose proof (Forall_inv FY) as FY0. pose proof (Forall_inv_tail FY) as FYs.
  assert (CC : chain Qle 0 cf) by (apply cumtrapz_from_chain; assumption).
  assert (Lc : length gs = length cf)
    by (unfold cf; now rewrite cumtrapz_from_length).
  split; [exact CC|]. split; [exact Lc|].
  split; [unfold Np.trapz; apply trapz_from_last|].
  destruct (sorted_knots any_order g0 gs 0 cf C (chain_any _ _)) as [SN _].
  destruct (sorted_knots Qle 0 cf g0 gs CC C) as [SI KI].
  pose proof (kchain_combine Qlt any_order gs g0 0 cf CG (chain_any _ _)) as KN.
  assert (LN : fst (last (combine gs cf) (g0, 0)) = last gs g0)
    by (rewrite last_combine_fst; [reflexivity|assumption]).
  assert (Ylo : Np.interp_at (Np.mk_interp ((g0, 0) :: combine gs cf) false 0 0) tmin = Ok 0).
  { rewrite interp_at_inside; [|lra|rewrite LN, EL; lra].
    now rewrite (np_interp_first any_order _ g0 0 tmin KN E0). }
  assert (Yhi : Np.interp_at (Np.mk_interp ((g0, 0) :: combine gs cf) false 0 0) tmax
                = Ok (last cf 0)).
  { rewrite interp_at_inside; [|lra|rewrite LN, EL; apply Qle_refl].
    rewrite (np_interp_past_last any_order);
      [ now rewrite last_combine_snd
      | apply kchain_lt_le; exact KN
      | rewrite LN, EL; apply Qle_refl ]. }
  intro u. unfold rescale, assemble.
  cbn [Normalizer_calc Inv_Normalizer_calc trans_min trans_max attr rbind Np.cumtrapz].
  fold cf. rewrite SN, SI, Ylo, Yhi. cbn [rbind Np.asarray nd_map Np.call].
  rewrite interp_at_total; [reflexivity|reflexivity|discriminate].
Qed.

(** X13: For a non-negative density on a non-degenerate range, in exact
    arithmetic, every unit-interval draw is rescaled into the range between
    the bounds resolved at construction (in binary64 up to rounding), and 1
    is rescaled to the construction-time maximum exactly; this stays so after
    any later mutation of [minimum], [maximum] or [yy]: bounds set later do
    not confine the samples. *)
Theorem rescale_within_construction_bounds xx0 yy0 mn mx s ms :
  __init__ xx0 yy0 mn mx = Ok s ->
  Forall (fun y => 0 <= y) yy0 ->
  trans_min s < trans_max s ->
  (forall u, 0 <= u -> u <= 1 ->
     exists r, rescale (run ms s) (PFloat u) = Ok (RFloat r) /\
               trans_min s <= r /\ r <= trans_max s) /\
  rescale (run ms s) (PFloat 1) = Ok (RFloat (trans_max s)).
Proof.
  intros H F B. pose proof (init_sets_guard _ _ _ _ _ H) as G.
  destruct (run_keeps_frozen ms s G) as [Efr _].
  pose proof (frozen_queries _ _ Efr) as Q. clear Efr G.
  apply init_shape in H.
  destruct H as (lo & hi & g0 & gs & ys & Hlo & Hhi & _ & E & E0 & C & L & FY & ->).
  specialize (FY F). cbn [assemble trans_min trans_max] in B |- *.
  set (tmin := resolved_minimum lo mn) in *.
  set (tmax := resolved_maximum hi mx) in *.
  pose proof (two_samples _ _ _ _ _ Hlo Hhi B) as N2.
  pose proof (linspace_increasing _ _ _ _ _ B E) as CG.
  pose proof (linspace_last tmin tmax _ 0 N2) as EL.
  rewrite E, last_cons in EL.
  destruct (rescale_assemble lo hi tmin tmax (master_of xx0 yy0) g0 gs _ ys
              E0 EL B CG L FY) as (CC & Lc & _ & R).
  set (cf := Np.cumtrapz_from 0 g0 (interp_val (master_of xx0 yy0) g0) gs ys) in *.
  set (T := last cf 0) in *.
  assert (PT : 0 <= T) by (apply chain_le_last; exact CC).
  assert (LI : fst (last (combine cf gs) (0, g0)) = T)
    by (rewrite last_combine_fst; [reflexivity|symmetry; assumption]).
  assert (LS : snd (last (combine cf gs) (0, g0)) = tmax)
    by (rewrite last_combine_snd; [exact EL|symmetry; assumption]).
  pose proof (kchain_combine Qle Qle cf 0 g0 gs CC C) as KI.
  split.
  - intros u U0 U1.
    rewrite (proj2 (proj2 (proj2 (Q (PFloat u))))), R.
    eexists. split; [reflexivity|].
    assert (Pu : 0 <= T * u) by (apply Qmult_le_0_compat; lra).
    assert (Pv : 0 <= T * (1 - u)) by (apply Qmult_le_0_compat; lra).
    destruct (interp_val_cases 0 g0 (combine cf gs) 0 0 (0 + (T - 0) * u))
      as [[A _]|[(_ & A & _)|(A & _ & ->)]]; [lra|rewrite LI in A; lra|].
    assert (K' : kchain any_order Qle (0, g0) (combine cf gs))
      by (revert KI; apply kchain_weaken; unfold any_order; auto).
    destruct (np_interp_range _ 0 g0 _ A K') as [R1 R2].
    rewrite LS in R2. split; [lra|exact R2].
  - rewrite (proj2 (proj2 (proj2 (Q (PFloat 1))))), R.
    assert (X : 0 + (T - 0) * 1 == T) by ring.
    destruct (interp_val_cases 0 g0 (combine cf gs) 0 0 (0 + (T - 0) * 1))
      as [[A _]|[(_ & A & _)|(A & _ & ->)]]; [lra|rewrite LI in A; lra|].
    rewrite (np_interp_past_last Qle); [now rewrite LS|exact KI|rewrite LI; lra].
Qed.

Lemma rescale_within_construction_bounds_scenario :
  rescale (run [SetMaximum (PFloat 2)] (built xs5 ys5 0 4 None None)) (PFloat 1)
  = Ok (RFloat (trans_max (built xs5 ys5 0 4 None None))).
Proof.
  refine (proj2 (rescale_within_construction_bounds xs5 ys5 None None
                   (built xs5 ys5 0 4 None None) [SetMaximum (PFloat 2)] _ _ _)).
  - exact scenario_constructed.
  - unfold ys5. repeat constructor; vm_compute; discriminate.
  - vm_compute. reflexivity.
Defined.

(** ** [rescale] and the inverse cumulative distribution *)

Lemma scaled_le T a b a' b' :
  0 < T -> a' == a / T -> b' == b / T -> (a' <= b' <-> a <= b).
Proof.
  intros PT Ea Eb. rewrite Ea, Eb.
  assert (Xa : a / T * T == a) by (field; lra).
  assert (Xb : b / T * T == b) by (field; lra).
  rewrite <- (Qmult_le_r (a / T) (b / T) T PT). rewrite Xa, Xb. tauto.
Qed.

Lemma scaled_eq T a b a' b' :
  0 < T -> a' == a / T -> b' == b / T -> (a' == b' <-> a == b).
Proof.
  intros PT Ea Eb.
  pose proof (scaled_le T a b a' b' PT Ea Eb).
  pose proof (scaled_le T b a b' a' PT Eb Ea).
  split; intro; apply Qle_antisym; try tauto.
  - apply H; lra.
  - apply H0; lra.
  - apply H; lra.
  - apply H0; lra.
Qed.

(** Dividing the abscissas of the knots and the query by [T] does not change
    the interpolated value. *)
Lemma np_interp_scaled T gs : forall cs cf c0' c0 g0 q' q,
  0 < T -> Forall2 (fun c' c => c' == c / T) cs cf ->
  c0' == c0 / T -> q' == q / T -> c0 <= q ->
  Np.np_interp c0' g0 (combine cs gs) q' == Np.np_interp c0 g0 (combine cf gs) q.
Proof.
  induction gs as [|g1 gs IH]; intros cs cf c0' c0 g0 q' q PT F2 E0 Eq Lo.
  - destruct cs, cf; reflexivity.
  - destruct F2 as [|c1' c1 cs cf E1 F2]; [reflexivity|].
    cbn [combine].
    pose proof (scaled_le T c1 q c1' q' PT E1 Eq) as W1.
    pose proof (scaled_eq T c0 q c0' q' PT E0 Eq) as W2.
    destruct (np_interp_cases c0' g0 c1' g1 (combine cs gs) q')
      as [[A ->]|[(A & E & ->)|(A & E & ->)]];
    destruct (np_interp_cases c0 g0 c1 g1 (combine cf gs) q)
      as [[A' ->]|[(A' & E' & ->)|(A' & E' & ->)]];
      try (exfalso; apply W1 in A; lra);
      try (exfalso; apply W1 in A'; lra);
      try (exfalso; tauto).
    + apply IH; assumption.
    + reflexivity.
    + assert (S : c0 < q) by (destruct (Qlt_le_dec c0 q); [assumption|exfalso; apply E'; lra]).
      rewrite E1, E0, Eq. field. split; lra.
Qed.

Lemma cumtrapz_from_scaled T xs : forall acc' acc x0 y0 ys,
  ~ T == 0 -> acc' == acc / T ->
  Forall2 (fun c' c => c' == c / T)
    (Np.cumtrapz_from acc' x0 (y0 / T) xs (map (fun v => v / T) ys))
    (Np.cumtrapz_from acc x0 y0 xs ys).
Proof.
  induction xs as [|x1 xs IH]; intros acc' acc x0 y0 ys NT Ea; [constructor|].
  destruct ys as [|y1 ys]; [constructor|].
  cbn [map Np.cumtrapz_from].
  assert (X : acc' + (x1 - x0) * (y1 / T + y0 / T) / 2
              == (acc + (x1 - x0) * (y1 + y0) / 2) / T)
    by (rewrite Ea; field; exact NT).
  constructor; [exact X|]. apply IH; assumption.
Qed.

Lemma set_last_scaled T l' : forall l,
  Forall2 (fun c' c => c' == c / T) l' l -> 1 == last l 0 / T ->
  Forall2 (fun c' c => c' == c / T) (Np.set_last l' 1) l.
Proof.
  induction l' as [|x' l' IH]; intros l F2 E1; inversion F2 as [|? x ? l0 Ex F2']; subst;
    [constructor|].
  destruct l' as [|y' l'].
  - inversion F2'; subst. simpl in *. constructor; [exact E1|constructor].
  - change (Np.set_last (x' :: y' :: l') 1) with (x' :: Np.set_last (y' :: l') 1).
    constructor; [exact Ex|]. apply IH; [exact F2'|].
    inversion F2'; subst. rewrite !last_cons in E1. rewrite last_cons. exact E1.
Qed.

(** The normalised cumulative sequence is the unnormalised one divided
    by the integral. *)
Lemma cumulative_is_scaled g0 gs y0 ys cs :
  0 < Np.trapz (y0 :: ys) (g0 :: gs) ->
  Np.set_last (Np.cumtrapz (map (fun v => v / Np.trapz (y0 :: ys) (g0 :: gs)) (y0 :: ys))
                 (g0 :: gs)) 1 = 0 :: cs ->
  cs <> [] ->
  Forall2 (fun c' c => c' == c / Np.trapz (y0 :: ys) (g0 :: gs)) cs
    (Np.cumtrapz_from 0 g0 y0 gs ys).
Proof.
  intros PT E Ncs.
  assert (ET : Np.trapz (y0 :: ys) (g0 :: gs) = last (Np.cumtrapz_from 0 g0 y0 gs ys) 0)
    by (unfold Np.trapz; apply trapz_from_last).
  set (T := Np.trapz (y0 :: ys) (g0 :: gs)) in *.
  set (cf := Np.cumtrapz_from 0 g0 y0 gs ys) in *.
  cbn [map Np.cumtrapz] in E.
  pose proof (cumtrapz_from_scaled T gs 0 0 g0 y0 ys) as X.
  fold cf in X.
  set (cf' := Np.cumtrapz_from 0 g0 (y0 / T) gs (map (fun v => v / T) ys)) in *.
  assert (X' : Forall2 (fun c' c => c' == c / T) cf' cf)
    by (apply X; [lra|field; lra]).
  clearbody cf'. destruct cf' as [|c1' cr].
  - simpl in E. injection E as E. congruence.
  - change (Np.set_last (0 :: c1' :: cr) 1) with (0 :: Np.set_last (c1' :: cr) 1) in E.
    injection E as <-. apply (set_last_scaled T (c1' :: cr)); [exact X'|].
    rewrite <- ET. field. lra.
Qed.

(** X15: Inverse transform sampling is exact right after construction: for a
    non-negative density of positive integral and a draw [u] of the unit
    interval, the cumulative distribution at [rescale(u)] is [u]. *)
Theorem cdf_of_rescale xx0 yy0 mn mx s u :
  __init__ xx0 yy0 mn mx = Ok s ->
  Forall (fun y => 0 <= y) yy0 ->
  0 < total_mass s ->
  0 <= u -> u <= 1 ->
  exists r c,
    rescale s (PFloat u) = Ok (RFloat r) /\
    cdf s (PFloat r) = Ok (Arr0 c) /\ c == u.
Proof.
  intros H F PT U0 U1.
  destruct (init_shape_positive _ _ _ _ _ H F PT)
    as (lo & hi & g0 & gs & y0 & ys & cs & -> & E0 & EL & S & CG & L & Lc & FY & PT'
        & E & Ncs & CC & E1).
  clear H PT.
  pose proof (chain_weaken Qlt Qle Qlt_le_weak _ _ CG) as C.
  destruct (rescale_assemble lo hi (resolved_minimum lo mn) (resolved_maximum hi mx)
              (master_of xx0 yy0) g0 gs y0 ys E0 EL S CG L FY) as (CCf & Lcf & ET & R).
  pose proof (cumulative_is_scaled g0 gs y0 ys cs PT' E Ncs) as F2.
  set (cf := Np.cumtrapz_from 0 g0 y0 gs ys) in *.
  set (T := Np.trapz (y0 :: ys) (g0 :: gs)) in *.
  destruct (sorted_knots Qle g0 gs 0 cs C CC) as [Scd Kcd].
  assert (Hi : u <= last cs 0) by (rewrite E1; exact U1).
  destruct (np_interp_inverse gs cs g0 0 u (eq_sym Lc) CG CC U0 Hi) as (X1 & X2 & X3).
  assert (Pu : 0 <= T * u) by (apply Qmult_le_0_compat; lra).
  assert (Pv : 0 <= T * (1 - u)) by (apply Qmult_le_0_compat; lra).
  assert (RX : interp_val (Np.mk_interp ((0, g0) :: combine cf gs) false 0 0)
                 (0 + (last cf 0 - 0) * u)
               == Np.np_interp 0 g0 (combine cs gs) u).
  { rewrite <- ET.
    destruct (interp_val_cases 0 g0 (combine cf gs) 0 0 (0 + (T - 0) * u))
      as [[A _]|[(_ & A & _)|(A & _ & ->)]].
    - lra.
    - rewrite last_combine_fst in A by (symmetry; exact Lcf). rewrite <- ET in A. lra.
    - symmetry. apply (np_interp_scaled T); try assumption.
      + field. lra.
      + field. lra. }
  set (r := interp_val (Np.mk_interp ((0, g0) :: combine cf gs) false 0 0)
              (0 + (last cf 0 - 0) * u)) in *.
  rewrite R. exists r. eexists. split; [reflexivity|].
  unfold cdf, assemble.
  cbn [cumulative_distribution attr rbind Np.asarray Np.call].
  fold T. rewrite E, Scd.
  rewrite interp_at_inside;
    [|lra|rewrite last_combine_fst by (symmetry; exact Lc); lra].
  cbn [rbind]. split; [reflexivity|].
  apply Qle_antisym.
  - rewrite <- X3. apply np_interp_monotone; [lra|lra|exact Kcd].
  - rewrite <- X3 at 1. apply np_interp_monotone; [exact X1|lra|exact Kcd].
Qed.

Lemma cdf_of_rescale_scenario :
  exists r c,
    rescale (built xs5 ys5 0 4 None None) (PFloat (3 # 10)) = Ok (RFloat r) /\
    cdf (built xs5 ys5 0 4 None None) (PFloat r) = Ok (Arr0 c) /\ c == 3 # 10.
Proof.
  apply (cdf_of_rescale xs5 ys5 None None (built xs5 ys5 0 4 None None) (3 # 10)).
  - exact scenario_constructed.
  - unfold ys5. repeat constructor; vm_compute; discriminate.
  - vm_compute. reflexivity.
  - vm_compute. discriminate.
  - vm_compute. discriminate.
Defined.

(** ** Array arguments *)

(** X16: On a constructed object [prob] and [cdf] of a one-dimensional array
    return an array of the same length whose entries are the results for the
    entries, one by one; neither raises, whatever the entries. *)
Theorem prob_and_cdf_elementwise xx0 yy0 mn mx s a :
  __init__ xx0 yy0 mn mx = Ok s ->
  exists ps cs,
    prob s (PArray a) = Ok (Arr1 ps) /\ cdf s (PArray a) = Ok (Arr1 cs) /\
    Forall2 (fun x p => prob s (PFloat x) = Ok (Arr0 p)) a ps /\
    Forall2 (fun x c => cdf s (PFloat x) = Ok (Arr0 c)) a cs.
Proof.
  intro H. apply init_shape in H.
  destruct H as (lo & hi & g0 & gs & ys & _ & _ & _ & _ & _ & _ & L & _ & ->).
  assert (U : usable (assemble lo hi (resolved_minimum lo mn) (resolved_maximum hi mx)
                        (master_of xx0 yy0) (g0 :: gs)
                        (interp_val (master_of xx0 yy0) g0 :: ys)))
    by (apply assemble_usable; [simpl; congruence|discriminate]).
  destruct U as [_ U].
  unfold prob, cdf in *. unfold assemble in *.
  cbn [probability_density cumulative_distribution attr rbind Np.asarray Np.call] in *.
  set (pd := Np.mk_interp _ false 0 0) in *.
  set (cd := Np.mk_interp _ false 0 1) in *.
  assert (Tp : forall x, Np.interp_at pd x = Ok (interp_val pd x)).
  { intro x. destruct (U (PFloat x)) as ((r & Hr) & _).
    cbn [Np.asarray Np.call] in Hr. unfold interp_val.
    destruct (Np.interp_at pd x); [reflexivity|discriminate]. }
  assert (Tc : forall x, Np.interp_at cd x = Ok (interp_val cd x)).
  { intro x. destruct (U (PFloat x)) as (_ & (r & Hr) & _).
    cbn [Np.asarray Np.call] in Hr. unfold interp_val.
    destruct (Np.interp_at cd x); [reflexivity|discriminate]. }
  exists (map (interp_val pd) a), (map (interp_val cd) a).
  rewrite (rmap_total _ (interp_val pd)) by (intros; apply Tp).
  rewrite (rmap_total _ (interp_val cd)) by (intros; apply Tc).
  repeat split.
  - induction a; constructor; [now rewrite Tp|assumption].
  - induction a; constructor; [now rewrite Tc|assumption].
Qed.

Lemma prob_and_cdf_elementwise_scenario :
  exists ps cs,
    prob (built xs5 ys5 0 4 None None) (PArray [-1; 2; 7]) = Ok (Arr1 ps) /\
    cdf (built xs5 ys5 0 4 None None) (PArray [-1; 2; 7]) = Ok (Arr1 cs).
Proof.
  destruct (prob_and_cdf_elementwise xs5 ys5 None None
              (built xs5 ys5 0 4 None None) [-1; 2; 7] scenario_constructed)
    as (ps & cs & E1 & E2 & _).
  exists ps, cs. split; assumption.
Defined.

(** * The numerical core, for any samples *)

(** ** The knots after sorting *)

Lemma insert_knot_In k l x : In x (Np.insert_knot k l) <-> x = k \/ In x l.
Proof.
  induction l as [|k' l IH]; simpl.
  - intuition congruence.
  - destruct (Qle_bool (fst k) (fst k')); simpl; [intuition congruence|].
    rewrite IH. intuition congruence.
Qed.

Lemma sort_knots_In l x : In x (Np.sort_knots l) <-> In x l.
Proof.
  induction l as [|k l IH]; simpl; [tauto|].
  rewrite insert_knot_In, IH. intuition congruence.
Qed.

Lemma insert_knot_cons k k0 l :
  (fst k <= fst k0 /\ Np.insert_knot k (k0 :: l) = k :: k0 :: l) \/
  (fst k0 < fst k /\ Np.insert_knot k (k0 :: l) = k0 :: Np.insert_knot k l).
Proof.
  simpl. destruct (Qle_bool (fst k) (fst k0)) eqn:B.
  - left. split; [apply Qle_bool_iff; exact B|reflexivity].
  - right. split; [|reflexivity]. apply Qltb_lt. unfold Qltb. now rewrite B.
Qed.

Lemma insert_knot_kchain k l : forall k0,
  kchain Qle any_order k0 l ->
  forall h t, Np.insert_knot k (k0 :: l) = h :: t -> kchain Qle any_order h t.
Proof.
  induction l as [|k1 l IH]; intros k0 K h t E.
  - destruct (insert_knot_cons k k0 []) as [[B E']|[B E']];
      rewrite E' in E; injection E as <- <-; simpl; unfold any_order;
      repeat split; auto using Qlt_le_weak.
  - destruct K as (X & _ & K).
    destruct (insert_knot_cons k k0 (k1 :: l)) as [[B E']|[B E']];
      rewrite E' in E;
      match type of E with ?a :: ?b = _ =>
        assert (Eh : h = a /\ t = b) by (split; congruence) end;
      destruct Eh as [-> ->]; clear E.
    + simpl. unfold any_order. auto.
    + destruct (insert_knot_cons k k1 l) as [[B1 E1]|[B1 E1]]; rewrite E1.
      * split; [apply Qlt_le_weak; exact B|]. split; [exact I|].
        apply (IH k1 K _ _ E1).
      * split; [exact X|]. split; [exact I|].
        apply (IH k1 K _ _ E1).
Qed.

Lemma sort_knots_kchain l : forall k0 l',
  Np.sort_knots l = k0 :: l' -> kchain Qle any_order k0 l'.
Proof.
  induction l as [|k l IH]; intros k0 l' E; [discriminate|].
  simpl in E. destruct (Np.sort_knots l) as [|k1 l1].
  - simpl in E. injection E as <- <-. exact I.
  - eapply insert_knot_kchain; [apply IH; reflexivity|exact E].
Qed.

Lemma in_combine_fst_exists (xs ys : list Q) x :
  length xs = length ys -> In x xs -> exists y, In (x, y) (combine xs ys).
Proof.
  revert ys. induction xs as [|a xs IH]; intros [|b ys] L H; try contradiction;
    try discriminate.
  destruct H as [->|H].
  - exists b. left. reflexivity.
  - destruct (IH ys) as (y & Hy); [simpl in L; congruence|exact H|].
    exists y. right. exact Hy.
Qed.

(** Reading one interpolant where the interpolant through the swapped knots
    lands, for a target that is the abscissa of one of its knots: the target
    comes back. *)
Lemma roundtrip_through_knots g0 c0 nl a0 b0 il nlo nhi ilo ihi v :
  kchain Qlt any_order (g0, c0) nl -> kchain Qle any_order (a0, b0) il ->
  (forall k, In k ((a0, b0) :: il) -> In (snd k, fst k) ((g0, c0) :: nl)) ->
  (exists k, In k ((a0, b0) :: il) /\ fst k == v) ->
  interp_val (Np.mk_interp ((g0, c0) :: nl) false nlo nhi)
    (interp_val (Np.mk_interp ((a0, b0) :: il) false ilo ihi) v) == v.
Proof.
  intros KN KI SW (k & Hk & Ek).
  assert (LoI : a0 <= v).
  { destruct Hk as [<-|Hk]; [simpl in Ek; lra|].
    pose proof (kchain_head_le _ _ _ KI k Hk) as X. simpl in X. lra. }
  assert (HiI : v <= fst (last il (a0, b0))).
  { pose proof (kchain_in_le_last _ _ _ k KI Hk). lra. }
  destruct (interp_val_cases a0 b0 il ilo ihi v)
    as [[A _]|[(_ & A & _)|(_ & _ & ->)]]; try lra.
  destruct (np_interp_hits_knot any_order _ a0 b0 v KI) as ([yk gk] & Hk' & Ek' & ->).
  { exists k. split; assumption. }
  cbn [fst snd] in *.
  pose proof (SW _ Hk') as HN. cbn [fst snd] in HN.
  assert (LoN : g0 <= gk).
  { destruct HN as [HN|HN]; [injection HN as <- _; apply Qle_refl|].
    pose proof (kchain_head_lt _ _ _ KN _ HN) as X. simpl in X. lra. }
  assert (HiN : gk <= fst (last nl (g0, c0))).
  { apply (kchain_in_le_last any_order _ (g0, c0) (gk, yk));
      [apply kchain_lt_le; exact KN|exact HN]. }
  destruct (interp_val_cases g0 c0 nl nlo nhi gk)
    as [[A _]|[(_ & A & _)|(_ & _ & ->)]]; try lra.
  rewrite (np_interp_at_knot any_order _ g0 c0 gk yk KN HN). exact Ek'.
Qed.

(** What [__init__] returns, with an increasing grid. *)
Lemma init_shape_strict xx0 yy0 mn mx s :
  __init__ xx0 yy0 mn mx = Ok s ->
  exists lo hi g0 gs y0 ys,
    s = assemble lo hi (resolved_minimum lo mn) (resolved_maximum hi mx)
          (master_of xx0 yy0) (g0 :: gs) (y0 :: ys) /\
    g0 == resolved_minimum lo mn /\ last gs g0 = resolved_maximum hi mx /\
    resolved_minimum lo mn < resolved_maximum hi mx /\
    chain Qlt g0 gs /\ length gs = length ys /\
    (Forall (fun v => 0 <= v) yy0 -> Forall (fun v => 0 <= v) (y0 :: ys)).
Proof.
  intro H. pose proof (init_inv_strict _ _ _ _ _ H) as (lo' & hi' & Hlo' & Hhi' & _ & S & _).
  apply init_shape in H.
  destruct H as (lo & hi & g0 & gs & ys & Hlo & Hhi & B & E & E0 & C & L & FY & ->).
  assert (lo' = lo) by congruence. assert (hi' = hi) by congruence. subst lo' hi'.
  pose proof (two_samples _ _ _ _ _ Hlo Hhi S) as N2.
  pose proof (linspace_last (resolved_minimum lo mn) (resolved_maximum hi mx) _ 0 N2) as EL.
  rewrite E, last_cons in EL.
  exists lo, hi, g0, gs, (interp_val (master_of xx0 yy0) g0), ys.
  repeat split; try assumption.
  eapply linspace_increasing; eassumption.
Qed.

(** ** The cumulative distribution *)

Lemma cumulative_nonempty g0 gs y0 ys T :
  length gs = length ys ->
  exists c0 cs,
    Np.set_last (Np.cumtrapz (map (fun v => v / T) (y0 :: ys)) (g0 :: gs)) 1 = c0 :: cs /\
    length cs = length gs /\ last cs c0 = 1.
Proof.
  intro L.
  set (l := Np.cumtrapz (map (fun v => v / T) (y0 :: ys)) (g0 :: gs)).
  assert (Ll : length l = S (length gs)).
  { unfold l. rewrite cumtrapz_length; [reflexivity|].
    simpl. now rewrite length_map, L. }
  assert (Nl : l <> []) by (intro E; rewrite E in Ll; discriminate).
  pose proof (last_set_last l 1 0 Nl) as E1.
  pose proof (set_last_length l 1) as Ls. rewrite Ll in Ls.
  destruct (Np.set_last l 1) as [|c0 cs]; [discriminate|].
  exists c0, cs. split; [reflexivity|].
  split; [simpl in Ls; congruence|]. now rewrite last_cons in E1.
Qed.

(** C3 as amended: on every constructed object [cdf] is exactly 1 at the
    last grid point, 0 below the first grid point and 1 above the last; for
    non-negative samples of positive integral it is, in exact arithmetic,
    non-decreasing everywhere. *)
Theorem cdf_ends_and_monotone xx0 yy0 mn mx s :
  __init__ xx0 yy0 mn mx = Ok s ->
  exists F g,
    cumulative_distribution s = Some F /\ xx s = Arr1 g /\
    (forall x, cdf s (PFloat x) = Ok (Arr0 (interp_val F x))) /\
    interp_val F (last g 0) = 1 /\
    (forall x, x < hd 0 g -> interp_val F x = 0) /\
    (forall x, last g 0 < x -> interp_val F x = 1) /\
    (Forall (fun y => 0 <= y) yy0 -> 0 < total_mass s ->
     forall a b, a <= b -> interp_val F a <= interp_val F b).
Proof.
  intro H. apply init_shape in H.
  destruct H as (lo & hi & g0 & gs & ys & _ & _ & _ & _ & _ & C & L & FY & ->).
  rewrite total_mass_assemble.
  set (y0 := interp_val (master_of xx0 yy0) g0) in *.
  set (T := Np.trapz (y0 :: ys) (g0 :: gs)) in *.
  destruct (cumulative_nonempty g0 gs y0 ys T L) as (c0 & cs & E & Lc & E1).
  destruct (sorted_knots any_order g0 gs c0 cs C (chain_any _ _)) as [S K].
  eexists; exists (g0 :: gs). unfold assemble, cdf.
  cbn [cumulative_distribution xx attr rbind]. fold T. rewrite E, S.
  split; [reflexivity|]. split; [reflexivity|].
  assert (LS : snd (last (combine gs cs) (g0, c0)) = 1)
    by (rewrite last_combine_snd; [assumption|symmetry; assumption]).
  assert (LF : fst (last (combine gs cs) (g0, c0)) = last gs g0)
    by (apply last_combine_fst; symmetry; assumption).
  pose proof (chain_le_last gs g0 C) as G0.
  split; [|split; [|split; [|split]]].
  - intro x. rewrite call_total; [reflexivity|reflexivity|discriminate].
  - rewrite last_cons.
    destruct (interp_val_cases g0 c0 (combine gs cs) 0 1 (last gs g0))
      as [[A _]|[(_ & A & _)|(_ & _ & ->)]].
    + lra.
    + rewrite LF in A. lra.
    + rewrite (np_interp_past_last any_order); [exact LS|exact K|rewrite LF; apply Qle_refl].
  - intros x A. cbn [hd] in A. unfold interp_val. now rewrite interp_at_below.
  - intros x A. rewrite last_cons in A. unfold interp_val.
    rewrite interp_at_above; [reflexivity|lra|rewrite LF; exact A].
  - intros F PT.
    destruct (cumulative_shape g0 gs _ ys C (FY F) PT) as (c0' & cs' & E' & P0 & CC & _).
    fold y0 T in E'. rewrite E in E'. injection E' as <- <-.
    apply interp_val_monotone.
    + apply kchain_combine; assumption.
    + exact P0.
    + rewrite LS. apply Qle_refl.
Qed.

Lemma cdf_ends_and_monotone_scenario :
  exists F g,
    cumulative_distribution (built xs5 ys5 0 4 None None) = Some F /\
    xx (built xs5 ys5 0 4 None None) = Arr1 g /\
    interp_val F (last g 0) = 1 /\
    interp_val F 1 <= interp_val F 2.
Proof.
  destruct (cdf_ends_and_monotone xs5 ys5 None None (built xs5 ys5 0 4 None None)
              scenario_constructed)
    as (F & g & E1 & E2 & _ & E3 & _ & _ & M).
  exists F, g. repeat split; try assumption.
  apply M.
  - unfold ys5. repeat constructor; vm_compute; discriminate.
  - vm_compute. reflexivity.
  - vm_compute. discriminate.
Defined.

(** C3 as stated fails: built from [xx = [0, 1, 2, 3, 4]] and
    [yy = [3, -1, -1, 3, 3]], the object has [cdf(1) = 1/4] and
    [cdf(2) = 0]. *)
Lemma cdf_decreases_for_signed_samples :
  exists s c1 c2,
    __init__ xs5 ys_signed None None = Ok s /\
    cdf s (PFloat 1) = Ok (Arr0 c1) /\ cdf s (PFloat 2) = Ok (Arr0 c2) /\
    c1 == 1 # 4 /\ c2 == 0 /\ 1 <= 2 /\ c2 < c1.
Proof.
  exists (built xs5 ys_signed 0 4 None None). eexists; eexists.
  split; [apply init_built; reflexivity|].
  split; [vm_compute; reflexivity|].
  split; [vm_compute; reflexivity|].
  repeat split; vm_compute; solve [discriminate | reflexivity].
Qed.

(** ** Queries outside the range *)

(** C7 as amended: on an object constructed from a density of non-zero
    integral, [inverse_cumulative_distribution] raises ValueError, and does
    not clamp, exactly for the queries below the least or above the greatest
    entry of [YY], scalar or entry of an array; for non-negative samples of
    positive integral the least entry is 0 and, in exact arithmetic, the
    greatest is 1, so that -0.1 and 1.1 raise.  [prob] and [cdf] return on
    every argument, with 0 outside the grid for [prob], and 0 below and 1
    above it for [cdf]. *)
Theorem quantile_raises_outside_cumulative_range xx0 yy0 mn mx s :
  __init__ xx0 yy0 mn mx = Ok s ->
  ~ total_mass s == 0 ->
  exists cum lo hi g,
    YY s = Some cum /\ xx s = Arr1 g /\
    In lo cum /\ In hi cum /\ Forall (fun c => lo <= c /\ c <= hi) cum /\
    (forall q, q < lo \/ hi < q -> quantile s (PFloat q) = Raise ValueError) /\
    (forall q, lo <= q -> q <= hi -> exists x, quantile s (PFloat q) = Ok (Arr0 x)) /\
    (forall a, Exists (fun q => q < lo \/ hi < q) a ->
               quantile s (PArray a) = Raise ValueError) /\
    (Forall (fun y => 0 <= y) yy0 -> 0 < total_mass s ->
     lo = 0 /\ hi = 1 /\
     quantile s (PFloat (-1 # 10)) = Raise ValueError /\
     quantile s (PFloat (11 # 10)) = Raise ValueError) /\
    (forall v, exists p c, prob s v = Ok p /\ cdf s v = Ok c) /\
    (forall x, x < hd 0 g \/ last g 0 < x -> prob s (PFloat x) = Ok (Arr0 0)) /\
    (forall x, x < hd 0 g -> cdf s (PFloat x) = Ok (Arr0 0)) /\
    (forall x, last g 0 < x -> cdf s (PFloat x) = Ok (Arr0 1)).
Proof.
  intro H. apply init_shape in H.
  destruct H as (lo & hi & g0 & gs & ys & _ & _ & _ & _ & _ & C & L & FY & ->).
  rewrite !total_mass_assemble. intros _.
  set (y0 := interp_val (master_of xx0 yy0) g0) in *.
  set (T := Np.trapz (y0 :: ys) (g0 :: gs)) in *.
  destruct (cumulative_nonempty g0 gs y0 ys T L) as (c0 & cs & E & Lc & E1).
  destruct (sorted_knots any_order g0 gs c0 cs C (chain_any _ _)) as [Scd Kcd].
  destruct (sorted_knots any_order g0 gs (y0 / T) (map (fun v => v / T) ys) C
              (chain_any _ _)) as [Spd Kpd].
  pose proof (chain_le_last gs g0 C) as G0.
  assert (LFc : fst (last (combine gs cs) (g0, c0)) = last gs g0)
    by (apply last_combine_fst; symmetry; exact Lc).
  assert (LFp : fst (last (combine gs (map (fun v => v / T) ys)) (g0, y0 / T)) = last gs g0)
    by (apply last_combine_fst; now rewrite length_map).
  (* the sorted knots of the inverse *)
  destruct (Np.sort_knots (combine (c0 :: cs) (g0 :: gs))) as [|[a0 b0] kl] eqn:EK.
  { apply (f_equal (@length (Q * Q))) in EK. rewrite sort_knots_length in EK.
    discriminate. }
  pose proof (sort_knots_kchain _ _ _ EK) as KI.
  assert (MI : forall k, In k ((a0, b0) :: kl) <-> In k (combine (c0 :: cs) (g0 :: gs)))
    by (intro k; rewrite <- EK; apply sort_knots_In).
  pose proof (kchain_le_last any_order kl (a0, b0) KI) as A0. cbn [fst] in A0.
  assert (Q1 : forall q, q < a0 \/ fst (last kl (a0, b0)) < q ->
            Np.interp_at (Np.mk_interp ((a0, b0) :: kl) true 0 0) q = Raise ValueError).
  { intros q [A|A].
    - rewrite interp_at_below; [reflexivity|exact A].
    - rewrite interp_at_above; [reflexivity|lra|exact A]. }
  set (s := assemble lo hi (resolved_minimum lo mn) (resolved_maximum hi mx)
              (master_of xx0 yy0) (g0 :: gs) (y0 :: ys)).
  assert (QU : forall v, quantile s v
               = Np.call (Np.mk_interp ((a0, b0) :: kl) true 0 0) (Np.asarray v)).
  { intro v. unfold quantile, s, assemble.
    cbn [inverse_cumulative_distribution attr rbind]. fold T. now rewrite E, EK. }
  assert (PU : forall v, prob s v
               = Ok (nd_map (interp_val (Np.mk_interp
                       ((g0, y0 / T) :: combine gs (map (fun v => v / T) ys)) false 0 0))
                       (Np.asarray v))).
  { intro v. unfold prob, s, assemble. cbn [probability_density attr rbind].
    fold T. cbn [map]. rewrite Spd.
    apply call_total; [reflexivity|discriminate]. }
  assert (CU : forall v, cdf s v
               = Ok (nd_map (interp_val (Np.mk_interp ((g0, c0) :: combine gs cs) false 0 1))
                       (Np.asarray v))).
  { intro v. unfold cdf, s, assemble. cbn [cumulative_distribution attr rbind].
    fold T. rewrite E, Scd.
    apply call_total; [reflexivity|discriminate]. }
  assert (QR : forall q, q < a0 \/ fst (last kl (a0, b0)) < q ->
               quantile s (PFloat q) = Raise ValueError).
  { intros q A. rewrite QU. cbn [Np.asarray Np.call]. now rewrite (Q1 q A). }
  exists (c0 :: cs), a0, (fst (last kl (a0, b0))), (g0 :: gs).
  split; [unfold s, assemble; cbn [YY]; fold T; now rewrite E|].
  split; [reflexivity|].
  split.
  { apply (in_combine_l (c0 :: cs) (g0 :: gs) a0 b0). apply MI. left. reflexivity. }
  split.
  { destruct (last kl (a0, b0)) as [al bl] eqn:EL.
    apply (in_combine_l (c0 :: cs) (g0 :: gs) al bl). apply MI.
    rewrite <- EL. apply in_last. }
  split.
  { apply Forall_forall. intros c Hc.
    destruct (in_combine_fst_exists (c0 :: cs) (g0 :: gs) c) as (gc & Hg);
      [simpl; congruence|exact Hc|].
    apply MI in Hg. split.
    - destruct Hg as [Hg|Hg]; [injection Hg as <- _; apply Qle_refl|].
      apply (kchain_head_le any_order _ _ KI _ Hg).
    - apply (kchain_in_le_last any_order _ _ _ KI Hg). }
  split; [exact QR|].
  split.
  { intros q A B. rewrite QU. cbn [Np.asarray Np.call].
    rewrite interp_at_inside by assumption. eexists. reflexivity. }
  split.
  { intros a X. rewrite QU. cbn [Np.asarray Np.call].
    rewrite (rmap_raises _ ValueError); [reflexivity|apply interp_at_raises|].
    apply Exists_exists. apply Exists_exists in X. destruct X as (q & Hq & A).
    exists q. split; [exact Hq|]. exists ValueError. apply Q1. exact A. }
  split.
  { intros F PT.
    destruct (cumulative_shape_from_zero g0 gs _ ys C L (FY F) PT)
      as (cs' & E' & _ & CC & E1' & _).
    fold T in E'. rewrite E in E'. injection E' as -> <-.
    destruct (sorted_knots Qle 0 cs g0 gs CC C) as [SI _].
    rewrite SI in EK. injection EK as <- <- <-.
    assert (EH : fst (last (combine cs gs) (0, g0)) = 1)
      by (rewrite last_combine_fst; [exact E1|exact Lc]).
    rewrite EH in *.
    split; [reflexivity|]. split; [reflexivity|].
    split; apply QR; [left|right]; reflexivity. }
  split.
  { intro v. eexists; eexists. split; [apply PU|apply CU]. }
  split.
  { intros x A. rewrite PU. cbn [Np.asarray nd_map]. f_equal. f_equal.
    unfold interp_val. cbn [hd] in A. rewrite last_cons in A.
    destruct A as [A|A].
    - now rewrite interp_at_below.
    - rewrite interp_at_above; [reflexivity|lra|rewrite LFp; exact A]. }
  split.
  { intros x A. rewrite CU. cbn [Np.asarray nd_map]. f_equal. f_equal.
    unfold interp_val. cbn [hd] in A. now rewrite interp_at_below. }
  intros x A. rewrite CU. cbn [Np.asarray nd_map]. f_equal. f_equal.
  unfold interp_val. rewrite last_cons in A.
  rewrite interp_at_above; [reflexivity|lra|rewrite LFc; exact A].
Qed.

Lemma quantile_raises_scenario :
  quantile (built xs5 ys5 0 4 None None) (PFloat (-1 # 10)) = Raise ValueError /\
  quantile (built xs5 ys5 0 4 None None) (PFloat (11 # 10)) = Raise ValueError.
Proof.
  destruct (quantile_raises_outside_cumulative_range xs5 ys5 None None
              (built xs5 ys5 0 4 None None) scenario_constructed)
    as (cum & lo & hi & g & _ & _ & _ & _ & _ & _ & _ & _ & D & _);
    [vm_compute; discriminate|].
  destruct D as (_ & _ & R1 & R2).
  - unfold ys5. repeat constructor; vm_compute; discriminate.
  - vm_compute. reflexivity.
  - split; assumption.
Defined.

(** C7 as stated fails: built from [xx = [0, 1, 2, 3, 4]] and
    [yy = [-1, -1, 3, 3, 3]], the object has [YY = [0, -1/6, 0, 1/2, 1]],
    and the query -0.1 returns 3/5 instead of raising. *)
Lemma quantile_accepts_negative_query :
  exists s cum x,
    __init__ xs5 ys_dip None None = Ok s /\
    YY s = Some cum /\ Forall2 Qeq cum [0; -1 # 6; 0; 1 # 2; 1] /\
    -1 # 10 < 0 /\
    quantile s (PFloat (-1 # 10)) = Ok (Arr0 x) /\ x == 3 # 5.
Proof.
  exists (built xs5 ys_dip 0 4 None None). eexists; eexists.
  split; [apply init_built; reflexivity|].
  split; [vm_compute; reflexivity|].
  split; [repeat constructor; vm_compute; reflexivity|].
  split; [vm_compute; reflexivity|].
  split; [vm_compute; reflexivity|vm_compute; reflexivity].
Qed.

(** ** Where [rescale] starts and ends *)

(** C2 as amended: on every constructed object [rescale(0)] and [rescale(1)]
    are points where [Normalizer_calc] takes its values at [trans_min] and at
    [trans_max]; for non-negative samples [rescale] is, in exact arithmetic,
    non-decreasing on the unit interval. *)
Theorem rescale_ends_and_monotone xx0 yy0 mn mx s :
  __init__ xx0 yy0 mn mx = Ok s ->
  exists N R,
    Normalizer_calc s = Some N /\
    (forall q, Np.interp_at N q = Ok (interp_val N q)) /\
    (forall u, rescale s (PFloat u) = Ok (RFloat (R u))) /\
    interp_val N (R 0) == interp_val N (trans_min s) /\
    interp_val N (R 1) == interp_val N (trans_max s) /\
    (Forall (fun y => 0 <= y) yy0 ->
     forall u v, 0 <= u -> u <= v -> v <= 1 -> R u <= R v).
Proof.
  intro H. apply init_shape_strict in H.
  destruct H as (lo & hi & g0 & gs & y0 & ys & -> & E0 & EL & B & CG & L & FY).
  cbn [assemble trans_min trans_max].
  set (tmin := resolved_minimum lo mn) in *.
  set (tmax := resolved_maximum hi mx) in *.
  pose proof (chain_weaken Qlt Qle Qlt_le_weak _ _ CG) as C.
  set (cf := Np.cumtrapz_from 0 g0 y0 gs ys).
  assert (Lc : length gs = length cf)
    by (unfold cf; now rewrite cumtrapz_from_length).
  set (T := last cf 0).
  destruct (sorted_knots any_order g0 gs 0 cf C (chain_any _ _)) as [SN _].
  pose proof (kchain_combine Qlt any_order gs g0 0 cf CG (chain_any _ _)) as KN.
  destruct (Np.sort_knots (combine (0 :: cf) (g0 :: gs))) as [|[a0 b0] il] eqn:EK.
  { apply (f_equal (@length (Q * Q))) in EK. rewrite sort_knots_length in EK.
    discriminate. }
  pose proof (sort_knots_kchain _ _ _ EK) as KI.
  assert (MI : forall k, In k ((a0, b0) :: il) <-> In k (combine (0 :: cf) (g0 :: gs)))
    by (intro k; rewrite <- EK; apply sort_knots_In).
  assert (SW : forall k, In k ((a0, b0) :: il) ->
                         In (snd k, fst k) ((g0, 0) :: combine gs cf)).
  { intros [a b] Hk. apply MI in Hk. cbn [fst snd].
    apply (in_combine_swap (0 :: cf) (g0 :: gs)). exact Hk. }
  set (N := Np.mk_interp ((g0, 0) :: combine gs cf) false 0 0).
  set (I := Np.mk_interp ((a0, b0) :: il) false 0 0).
  assert (HN : forall q, Np.interp_at N q = Ok (interp_val N q))
    by (intro q; apply interp_at_total; [reflexivity|discriminate]).
  assert (HI : forall q, Np.interp_at I q = Ok (interp_val I q))
    by (intro q; apply interp_at_total; [reflexivity|discriminate]).
  assert (LN : fst (last (combine gs cf) (g0, 0)) = tmax)
    by (rewrite last_combine_fst; assumption).
  assert (Ylo : interp_val N tmin = 0).
  { unfold N. destruct (interp_val_cases g0 0 (combine gs cf) 0 0 tmin)
      as [[A ->]|[(_ & A & ->)|(_ & _ & ->)]]; try reflexivity.
    apply (np_interp_first any_order); [exact KN|exact E0]. }
  assert (Yhi : interp_val N tmax = T).
  { unfold N. destruct (interp_val_cases g0 0 (combine gs cf) 0 0 tmax)
      as [[A _]|[(_ & A & _)|(_ & _ & ->)]]; [lra|rewrite LN in A; lra|].
    rewrite (np_interp_past_last any_order);
      [ apply last_combine_snd; exact Lc
      | apply kchain_lt_le; exact KN
      | rewrite LN; apply Qle_refl ]. }
  exists N, (fun u => interp_val I (0 + (T - 0) * u)).
  split.
  { unfold assemble. cbn [Normalizer_calc]. cbn [Np.cumtrapz]. fold cf.
    rewrite SN. reflexivity. }
  split; [exact HN|]. split.
  { intro u. unfold rescale, assemble.
    cbn [Normalizer_calc Inv_Normalizer_calc trans_min trans_max attr rbind Np.cumtrapz].
    fold cf. rewrite SN, EK. fold N I. rewrite !HN. cbn [rbind].
    rewrite Ylo, Yhi. cbn [Np.asarray nd_map Np.call]. rewrite HI. reflexivity. }
  rewrite Ylo, Yhi.
  split; [|split].
  - assert (X : 0 + (T - 0) * 0 == 0) by ring.
    unfold N, I. cbv beta.
    eapply Qeq_trans; [|exact X].
    apply (roundtrip_through_knots g0 0 (combine gs cf) a0 b0 il 0 0 0 0 _ KN KI SW).
    exists (0, g0). split; [apply MI; left; reflexivity|]. simpl. lra.
  - assert (X : 0 + (T - 0) * 1 == T) by ring.
    unfold N, I. cbv beta.
    eapply Qeq_trans; [|exact X].
    apply (roundtrip_through_knots g0 0 (combine gs cf) a0 b0 il 0 0 0 0 _ KN KI SW).
    exists (last (combine cf gs) (0, g0)).
    split; [apply MI; apply (in_last (combine cf gs) (0, g0))|].
    rewrite last_combine_fst by (symmetry; exact Lc). fold T. lra.
  - intros F u v U UV V. specialize (FY F).
    pose proof (Forall_inv FY) as FY0. pose proof (Forall_inv_tail FY) as FYs.
    assert (CC : chain Qle 0 cf) by (apply cumtrapz_from_chain; assumption).
    assert (PT : 0 <= T) by (apply chain_le_last; exact CC).
    destruct (sorted_knots Qle 0 cf g0 gs CC C) as [SI KS].
    rewrite SI in EK. injection EK as <- <- <-.
    assert (LI : fst (last (combine cf gs) (0, g0)) = T)
      by (rewrite last_combine_fst; [reflexivity|symmetry; assumption]).
    assert (Pu : 0 <= T * u) by (apply Qmult_le_0_compat; lra).
    assert (Puv : 0 <= T * (v - u)) by (apply Qmult_le_0_compat; lra).
    assert (Pv : 0 <= T * (1 - v)) by (apply Qmult_le_0_compat; lra).
    unfold I.
    destruct (interp_val_cases 0 g0 (combine cf gs) 0 0 (0 + (T - 0) * u))
      as [[A _]|[(_ & A & _)|(A & _ & ->)]]; [lra|rewrite LI in A; lra|].
    destruct (interp_val_cases 0 g0 (combine cf gs) 0 0 (0 + (T - 0) * v))
      as [[A' _]|[(_ & A' & _)|(A' & _ & ->)]]; [lra|rewrite LI in A'; lra|].
    apply np_interp_monotone; [exact A|lra|exact KS].
Qed.

Lemma rescale_ends_scenario :
  exists N R,
    Normalizer_calc (built xs5 ys5 0 4 None None) = Some N /\
    (forall u, rescale (built xs5 ys5 0 4 None None) (PFloat u) = Ok (RFloat (R u))) /\
    interp_val N (R 1) == interp_val N (trans_max (built xs5 ys5 0 4 None None)) /\
    R (1 # 4) <= R (1 # 2).
Proof.
  destruct (rescale_ends_and_monotone xs5 ys5 None None
              (built xs5 ys5 0 4 None None) scenario_constructed)
    as (N & R & E1 & _ & E2 & _ & E3 & M).
  exists N, R. repeat split; try assumption.
  apply M.
  - unfold ys5. repeat constructor; vm_compute; discriminate.
  - vm_compute. discriminate.
  - vm_compute. discriminate.
  - vm_compute. discriminate.
Defined.

(** C2 as stated fails: built from [xx = [0, 1, 2, 3, 4]] and
    [yy = [3, -1, -1, 3, 3]], the object has [rescale(0) = 2] and
    [rescale(1/8) = 3/2]. *)
Lemma rescale_decreases_for_signed_samples :
  exists s r0 r1,
    __init__ xs5 ys_signed None None = Ok s /\
    rescale s (PFloat 0) = Ok (RFloat r0) /\
    rescale s (PFloat (1 # 8)) = Ok (RFloat r1) /\
    r0 == 2 /\ r1 == 3 # 2 /\ 0 <= 0 /\ 0 <= 1 # 8 /\ 1 # 8 <= 1 /\ r1 < r0.
Proof.
  exists (built xs5 ys_signed 0 4 None None). eexists; eexists.
  split; [apply init_built; reflexivity|].
  split; [vm_compute; reflexivity|].
  split; [vm_compute; reflexivity|].
  repeat split; vm_compute; solve [discriminate | reflexivity].
Qed.
